(** * jsondiff: a structural diff of two decoded JSON / msgpack documents

    A shallow embedding of [jsondiff.py]: the recursive comparator [diff]
    (a closure of [jsondiff] over the ignore globs and the set-sort flag),
    the path matcher [_ignore], and the key fix-up pass [fixup_keys].

    Python library functions the program calls are modelled next to it:
    [os.path.join] (POSIX), [fnmatch.fnmatch], [math.isclose], [str] and the
    equality of the scalar types.  What the program prints is kept as a list
    of change records, one per [print] call, in the order of the calls, each
    record holding the arguments of the format string. *)

From Stdlib Require Import ZArith QArith List String Ascii Bool Lia PeanoNat.
From Stdlib Require Import Permutation DecimalString DecimalPos DecimalZ.
From Stdlib Require Import Floats.
Import ListNotations.

Local Close Scope Q_scope.
Local Open Scope string_scope.
Local Open Scope list_scope.

(* ------------------------------------------------------------------ *)
(** ** Text *)

(** A Python [str] is a [string]; one [ascii] stands for one character, so
    the model covers text whose code points fit in eight bits. *)

Definition chars (s : string) : list ascii := list_ascii_of_string s.

Definition code (c : ascii) : nat := nat_of_ascii c.

Definition startswith (s : string) (c : ascii) : bool :=
  match s with
  | String c' _ => Ascii.eqb c' c
  | EmptyString => false
  end.

Fixpoint endswith (s : string) (c : ascii) : bool :=
  match s with
  | EmptyString => false
  | String c' EmptyString => Ascii.eqb c' c
  | String _ s' => endswith s' c
  end.

(** [posixpath.join(a, b)]: an absolute [b] replaces [a]; otherwise the two
    are glued with one separator unless [a] is empty or already ends in one. *)
Definition path_join (a b : string) : string :=
  if startswith b "/" then b
  else if (String.eqb a "" || endswith a "/")%bool then a ++ b
  else a ++ "/" ++ b.

(** [str(n)] for an integer. *)
Definition str_int (z : Z) : string := NilZero.string_of_int (Z.to_int z).

Definition str_nat (n : nat) : string := str_int (Z.of_nat n).

Definition hex_digit (n : nat) : ascii :=
  nth n (chars "0123456789abcdef") "0"%char.

(** One byte of [repr(bytes)], for the quote character [q] in use. *)
Definition repr_byte (q : ascii) (b : Byte.byte) : string :=
  let c := ascii_of_byte b in
  let n := code c in
  if (Ascii.eqb c q || Ascii.eqb c "\")%bool then String "\" (String c "")
  else if Nat.eqb n 9 then "\t"
  else if Nat.eqb n 10 then "\n"
  else if Nat.eqb n 13 then "\r"
  else if (Nat.ltb n 32 || Nat.leb 127 n)%bool
       then String "\" (String "x" (String (hex_digit (n / 16)) (String (hex_digit (n mod 16)) "")))
  else String c "".

(** The double quote character. *)
Definition dquote : ascii := ascii_of_nat 34.

Definition has_byte (c : ascii) (bs : list Byte.byte) : bool :=
  existsb (fun b => Ascii.eqb (ascii_of_byte b) c) bs.

(** [str(b)] for a [bytes] object is its [repr]: [b'...'], with double
    quotes when the bytes hold a single quote and no double quote. *)
Definition str_bytes (bs : list Byte.byte) : string :=
  let q : ascii := if (has_byte "'" bs && negb (has_byte dquote bs))%bool
                   then dquote else "'"%char in
  String "b" (String q (concat "" (map (repr_byte q) bs) ++ String q "")).

(* ------------------------------------------------------------------ *)
(** ** [fnmatch.fnmatch] on POSIX

    [fnmatch] translates the pattern to a regular expression and matches the
    whole name against it ([os.path.normcase] is the identity on POSIX, so
    matching is case-sensitive).  The translation is kept as a list of
    tokens and matched directly; the matcher accepts the language of the
    regular expression that [fnmatch.translate] builds. *)

(** The processed body of a bracket expression: characters, and the hyphens
    that join two chunks of the body into a range. *)
Inductive elem :=
| Chr (c : ascii)
| Hy.

Inductive token :=
| Star                                (* [*]: [.*] *)
| AnyChar                             (* [?]: [.] under [(?s)] *)
| Lit (c : ascii)                     (* [re.escape(c)] *)
| Class (neg : bool) (body : list elem).

(** The scan for the closing bracket: [stuff] is [pat[i:j]], the rest is
    [pat[j+1:]].  A [!] in first place and a bracket right after the
    optional [!] do not close. *)
Fixpoint until_close (s : list ascii) : option (list ascii * list ascii) :=
  match s with
  | [] => None
  | c :: r =>
      if Ascii.eqb c "]" then Some ([], r)
      else match until_close r with
           | Some (stuff, rest) => Some (c :: stuff, rest)
           | None => None
           end
  end.

Definition take_if (c : ascii) (s : list ascii) : list ascii * list ascii :=
  match s with
  | c' :: r => if Ascii.eqb c' c then ([c'], r) else ([], s)
  | [] => ([], s)
  end.

Definition split_class (s : list ascii) : option (list ascii * list ascii) :=
  let '(bang, s1) := take_if "!" s in
  let '(brk, s2) := take_if "]" s1 in
  match until_close s2 with
  | Some (stuff, rest) => Some (bang ++ brk ++ stuff, rest)
  | None => None
  end.

(** The chunks of a body that holds a hyphen: the body is cut at each hyphen
    found by [pat.find('-', k, j)]; [skip] characters are passed over before
    the search resumes (1 or 2 at the start, 2 after each cut).  A hyphen in
    last place ends no chunk: it is added to the last one. *)
Fixpoint chunks_from (skip : nat) (cur : list ascii) (s : list ascii)
  : list (list ascii) :=
  match s with
  | [] => [rev cur]
  | c :: r =>
      match skip with
      | S k => chunks_from k (c :: cur) r
      | O =>
          if Ascii.eqb c "-"
          then match r with
               | [] => [rev (c :: cur)]
               | _ => rev cur :: chunks_from 2 [] r
               end
          else chunks_from 0 (c :: cur) r
      end
  end.

(** "Remove empty ranges": from the right, two neighbouring chunks whose
    joining range is empty lose the two end points and become one chunk. *)
Fixpoint merge_chunks (cs : list (list ascii)) : list (list ascii) :=
  match cs with
  | [] => []
  | c :: rest =>
      match merge_chunks rest with
      | [] => [c]
      | d :: ds =>
          if Nat.ltb (code (hd "-"%char d)) (code (last c "-"%char))
          then (removelast c ++ tl d) :: ds
          else c :: d :: ds
      end
  end.

Fixpoint join_chunks (cs : list (list ascii)) : list elem :=
  match cs with
  | [] => []
  | [c] => map Chr c
  | c :: rest => map Chr c ++ Hy :: join_chunks rest
  end.

Definition is_bang (c : ascii) : bool := Ascii.eqb c "!".

(** The bracket expression for [stuff]: an empty body never matches, a
    leading [!] of the processed body negates. *)
Definition class_of (stuff : list ascii) : token :=
  let body :=
    if existsb (fun c => Ascii.eqb c "-") stuff
    then join_chunks
           (merge_chunks
              (chunks_from (if startswith (string_of_list_ascii stuff) "!" then 2 else 1)
                           [] stuff))
    else map Chr stuff in
  match body with
  | Chr c :: body' => if is_bang c then Class true body' else Class false body
  | _ => Class false body
  end.

Fixpoint translate_fuel (n : nat) (pat : list ascii) : list token :=
  match n with
  | O => []
  | S n' =>
      match pat with
      | [] => []
      | c :: r =>
          if Ascii.eqb c "*" then Star :: translate_fuel n' r
          else if Ascii.eqb c "?" then AnyChar :: translate_fuel n' r
          else if Ascii.eqb c "[" then
            match split_class r with
            | None => Lit "[" :: translate_fuel n' r
            | Some (stuff, rest) => class_of stuff :: translate_fuel n' rest
            end
          else Lit c :: translate_fuel n' r
      end
  end.

Definition translate (pat : string) : list token :=
  translate_fuel (String.length pat) (chars pat).

(** A character against the body of a set, read as the regular-expression
    parser reads it: [lo-hi] is a range, any other element is literal. *)
Fixpoint in_body (body : list elem) (c : ascii) : bool :=
  match body with
  | [] => false
  | Chr lo :: Hy :: Chr hi :: rest =>
      (Nat.leb (code lo) (code c) && Nat.leb (code c) (code hi))%bool || in_body rest c
  | Chr x :: rest => Ascii.eqb x c || in_body rest c
  | Hy :: rest => Ascii.eqb "-" c || in_body rest c
  end.

Definition token_accepts (t : token) (c : ascii) : bool :=
  match t with
  | Star => false
  | AnyChar => true
  | Lit x => Ascii.eqb x c
  | Class neg body => xorb neg (in_body body c)
  end.

(** Does the whole of [s] match the tokens? *)
Fixpoint glob_match (ts : list token) (s : list ascii) {struct ts} : bool :=
  match ts with
  | [] => match s with [] => true | _ => false end
  | Star :: ts' =>
      (fix star (s : list ascii) : bool :=
         glob_match ts' s ||
         match s with
         | [] => false
         | _ :: s' => star s'
         end) s
  | t :: ts' =>
      match s with
      | [] => false
      | c :: s' => token_accepts t c && glob_match ts' s'
      end
  end.

Definition fnmatch (name pat : string) : bool :=
  glob_match (translate pat) (chars name).

(* ------------------------------------------------------------------ *)
(** ** Decoded documents *)

(** The hashable scalars that occur as dictionary keys and as members of a
    list compared as a set: [bool], [int], [str] and [bytes]. *)
Inductive atom :=
| ABool (b : bool)
| AInt (z : Z)
| AStr (s : string)
| ABytes (b : list Byte.byte).

(** What [json.load] and [msgpack.load] return.  [bool] is a subclass of
    [int] in Python; it keeps a constructor of its own because [type] and
    [str] tell the two apart. *)
#[local] Unset Elimination Schemes.

Inductive value :=
| VNone
| VBool (b : bool)
| VInt (z : Z)
| VFloat (f : float)
| VStr (s : string)
| VBytes (b : list Byte.byte)
| VList (l : list value)
| VDict (m : list (atom * value)).

#[local] Set Elimination Schemes.

Inductive pytype :=
| TNone | TBool | TInt | TFloat | TStr | TBytes | TList | TDict.

(** [type(d)] *)
Definition type_of (d : value) : pytype :=
  match d with
  | VNone => TNone
  | VBool _ => TBool
  | VInt _ => TInt
  | VFloat _ => TFloat
  | VStr _ => TStr
  | VBytes _ => TBytes
  | VList _ => TList
  | VDict _ => TDict
  end.

Definition pytype_eqb (t1 t2 : pytype) : bool :=
  match t1, t2 with
  | TNone, TNone | TBool, TBool | TInt, TInt | TFloat, TFloat
  | TStr, TStr | TBytes, TBytes | TList, TList | TDict, TDict => true
  | _, _ => false
  end.

(** [isinstance(d, Number)]: [int] (hence [bool]) and [float]. *)
Definition is_number (d : value) : bool :=
  match d with
  | VBool _ | VInt _ | VFloat _ => true
  | _ => false
  end.

(** [isinstance(d, (int, str, bytes))]; a [bool] is an [int]. *)
Definition is_int_str_bytes (d : value) : bool :=
  match d with
  | VBool _ | VInt _ | VStr _ | VBytes _ => true
  | _ => false
  end.

Definition is_list (d : value) : bool :=
  match d with VList _ => true | _ => false end.

Definition to_atom (d : value) : option atom :=
  match d with
  | VBool b => Some (ABool b)
  | VInt z => Some (AInt z)
  | VStr s => Some (AStr s)
  | VBytes b => Some (ABytes b)
  | _ => None
  end.

(** [str(k)] for a key or a set member. *)
Definition str (a : atom) : string :=
  match a with
  | ABool true => "True"
  | ABool false => "False"
  | AInt z => str_int z
  | AStr s => s
  | ABytes b => str_bytes b
  end.

Definition bytes_eqb (b1 b2 : list Byte.byte) : bool :=
  String.eqb (string_of_list_byte b1) (string_of_list_byte b2).

(** [==] on hashable scalars, the equality sets and dictionaries use:
    [True == 1] and [False == 0]; text and bytes are never equal. *)
Definition atom_eqb (a1 a2 : atom) : bool :=
  match a1, a2 with
  | ABool b1, ABool b2 => Bool.eqb b1 b2
  | ABool b, AInt z | AInt z, ABool b => Z.eqb (Z.b2z b) z
  | AInt z1, AInt z2 => Z.eqb z1 z2
  | AStr s1, AStr s2 => String.eqb s1 s2
  | ABytes b1, ABytes b2 => bytes_eqb b1 b2
  | _, _ => false
  end.

(* ------------------------------------------------------------------ *)
(** ** Numbers *)

Local Open Scope float_scope.

(** [math.isclose(a, b, rel_tol=rel_tol, abs_tol=abs_tol)] as CPython's
    [math_isclose_impl] computes it, for tolerances that are not negative. *)
Definition isclose (a b rel_tol abs_tol : float) : bool :=
  if a =? b then true
  else if (is_infinity a || is_infinity b)%bool then false
  else
    let d := abs (b - a) in
    ((d <=? abs (rel_tol * b)) || (d <=? abs (rel_tol * a)) || (d <=? abs_tol))%bool.

(** The default [rel_tol=1e-09], as the binary64 number the literal denotes. *)
Definition default_rel_tol : float := 0x1.12e0be826d695p-30.

(** The literal [0.00001] of line 81. *)
Definition abs_tol : float := 0x1.4f8b588e368f1p-17.

Local Close Scope float_scope.

(** The exact value of a finite float, as a fraction. *)
Definition float_value (f : float) : option Q :=
  match Prim2SF f with
  | S754_zero _ => Some (inject_Z 0)
  | S754_finite s m e =>
      let mz := if s then Z.neg m else Z.pos m in
      match e with
      | Zneg p => Some (Qmake mz (Pos.pow 2 p))
      | _ => Some (inject_Z (mz * 2 ^ e))
      end
  | _ => None
  end.

(** [f == z] for a float and an integer: Python compares the exact values,
    without rounding the integer; an infinity or a NaN equals no integer. *)
Definition float_eq_int (f : float) (z : Z) : bool :=
  match float_value f with
  | Some q => Qeq_bool q (inject_Z z)
  | None => false
  end.

(** [d1 == d2] for the pairs that reach line 83: two scalars of one type,
    or two numbers.  Two lists or two dictionaries are taken by lines 39
    and 69 and are never compared with [==]. *)
Definition scalar_eq (d1 d2 : value) : bool :=
  match d1, d2 with
  | VNone, VNone => true
  | VBool b1, VBool b2 => Bool.eqb b1 b2
  | VBool b, VInt z | VInt z, VBool b => Z.eqb (Z.b2z b) z
  | VInt z1, VInt z2 => Z.eqb z1 z2
  | VFloat f, VBool b | VBool b, VFloat f => float_eq_int f (Z.b2z b)
  | VFloat f, VInt z | VInt z, VFloat f => float_eq_int f z
  | VFloat f1, VFloat f2 => PrimFloat.eqb f1 f2
  | VStr s1, VStr s2 => String.eqb s1 s2
  | VBytes b1, VBytes b2 => bytes_eqb b1 b2
  | _, _ => false
  end.

(* ------------------------------------------------------------------ *)
(** ** Sets of hashable scalars and dictionaries *)

Definition mem (a : atom) (s : list atom) : bool := existsb (atom_eqb a) s.

(** [set(xs)]: of several equal members the first one stays. *)
Fixpoint set_of (xs : list atom) : list atom :=
  match xs with
  | [] => []
  | a :: r => a :: filter (fun b => negb (atom_eqb a b)) (set_of r)
  end.

(** [s1 - s2] *)
Definition set_diff (s1 s2 : list atom) : list atom :=
  filter (fun a => negb (mem a s2)) s1.

(** [s1 & s2]: CPython walks the smaller set (the right one when the sizes
    agree) and keeps its members found in the other. *)
Definition set_and (s1 s2 : list atom) : list atom :=
  if Nat.ltb (List.length s1) (List.length s2)
  then filter (fun a => mem a s2) s1
  else filter (fun a => mem a s1) s2.

(** [d[k]] on a dictionary kept as the list of its items. *)
Fixpoint lookup {A : Type} (k : atom) (m : list (atom * A)) : option A :=
  match m with
  | [] => None
  | (k', v) :: m' => if atom_eqb k k' then Some v else lookup k m'
  end.

(** [set(d.keys())] *)
Definition keys {A : Type} (m : list (atom * A)) : list atom :=
  set_of (map fst m).

Fixpoint drop_nth {A : Type} (i : nat) (l : list A) : list A :=
  match l, i with
  | [], _ => []
  | _ :: r, O => r
  | x :: r, S i' => x :: drop_nth i' r
  end.

(** The members of the list [xs] that are [int], [str] or [bytes]. *)
Fixpoint atoms (xs : list value) : list atom :=
  match xs with
  | [] => []
  | d :: r => match to_atom d with
              | Some a => a :: atoms r
              | None => atoms r
              end
  end.

(* ------------------------------------------------------------------ *)
(** ** Change records *)

(** One constructor per [print] call of [diff], holding the arguments of
    its format string. *)
Inductive record :=
| Removed (key : string)                       (* "-{}" *)
| Added (key : string)                         (* "+{}" *)
| ListGrown (path : string) (n : nat)          (* "+{}/[{}]/..." *)
| ListShrunk (path : string) (n : nat)         (* "-{}/[{}]" *)
| TypeChanged (path : string) (d1 d2 : value)  (* '!{}: {}"{}" -> {}"{}"' *)
| FloatChanged (path : string) (f1 f2 : float) (* "~{}: {}f -> {}f" *)
| ValueChanged (path : string) (d1 d2 : value) (* '~{}: {}"{}" -> {}"{}"' *).

(* ------------------------------------------------------------------ *)
(** ** [jsondiff] *)

Section Jsondiff.

(** The arguments of [jsondiff] that its closures [_ignore] and [diff]
    read. *)
Variable ignore : list string.
Variable set_sort : bool.

(** The order in which Python walks a set is not fixed by the language.
    [choose] picks, from the members still to visit, the position of the
    next one; every function [choose] gives one order of iteration
    ([iterate_perm]), and every order is given by some [choose]
    ([iterate_any_order]). *)
Variable choose : list atom -> nat.

Fixpoint iterate_fuel (n : nat) (s : list atom) : list atom :=
  match n, s with
  | S n', x :: _ =>
      let i := choose s mod List.length s in
      nth i s x :: iterate_fuel n' (drop_nth i s)
  | _, _ => []
  end.

(** [for k in s] *)
Definition iterate (s : list atom) : list atom :=
  iterate_fuel (List.length s) s.

Definition _ignore (path : string) : bool :=
  existsb (fun f => fnmatch path f) ignore.

(** Lines 42-44 and 62-64. *)
Definition removed (path : string) (k : atom) : list record :=
  let key := path_join path (str k) in
  if _ignore key then [] else [Removed key].

(** Lines 49-51 and 66-68. *)
Definition added (path : string) (k : atom) : list record :=
  let key := path_join path (str k) in
  if _ignore key then [] else [Added key].

(** Lines 71-74. *)
Definition length_record (path : string) (n1 n2 : nat) : list record :=
  if Nat.ltb n1 n2 then [ListGrown path (n2 - n1)]
  else if Nat.ltb n2 n1 then [ListShrunk path (n1 - n2)]
  else [].

(** The test of lines 53-57. *)
Definition set_mode (d1 d2 : value) : bool :=
  match d1, d2 with
  | VList l1, VList l2 =>
      set_sort && forallb is_int_str_bytes l1 && forallb is_int_str_bytes l2
  | _, _ => false
  end.

(** Lines 78-84, for a pair that is neither two dictionaries nor two
    lists. *)
Definition compare_scalars (d1 d2 : value) (path : string) : list record :=
  if negb (is_number d1 && is_number d2) && negb (pytype_eqb (type_of d1) (type_of d2))
  then [TypeChanged path d1 d2]
  else match d1, d2 with
       | VFloat f1, VFloat f2 =>
           if isclose f1 f2 default_rel_tol abs_tol then []
           else [FloatChanged path f1 f2]
       | _, _ =>
           if scalar_eq d1 d2 then [] else [ValueChanged path d1 d2]
       end.

(** [diff], by recursion on the left document.  For two dictionaries the
    closures [diff d1[k]] are tabulated first, so that the call
    [diff(d1[k], d2[k], key)] is a call on a part of [d1]. *)
Fixpoint diff (d1 d2 : value) (path : string) {struct d1} : list record :=
  if _ignore path then []
  else
    match d1, d2 with
    | VDict m1, VDict m2 =>
        let k1 := keys m1 in
        let k2 := keys m2 in
        let sub :=
          (fix sub (m : list (atom * value)) :=
             match m with
             | [] => []
             | (k, v) :: m' => (k, diff v) :: sub m'
             end) m1 in
        flat_map (removed path) (iterate (set_diff k1 k2))
        ++ flat_map (fun k =>
                       let key := path_join path (str k) in
                       match lookup k sub, lookup k m2 with
                       | Some diff_v1, Some v2 => diff_v1 v2 key
                       | _, _ => []
                       end)
                    (iterate (set_and k1 k2))
        ++ flat_map (added path) (iterate (set_diff k2 k1))
    | VList l1, VList l2 =>
        if set_mode d1 d2 then
          let s1 := set_of (atoms l1) in
          let s2 := set_of (atoms l2) in
          flat_map (removed path) (iterate (set_diff s1 s2))
          ++ flat_map (added path) (iterate (set_diff s2 s1))
        else
          length_record path (List.length l1) (List.length l2)
          ++ (fix pairs (l1 l2 : list value) (n : nat) : list record :=
                match l1, l2 with
                | v1 :: r1, v2 :: r2 =>
                    let key := path_join path (str_nat n) in
                    diff v1 v2 (path_join path key) ++ pairs r1 r2 (S n)
                | _, _ => []
                end) l1 l2 O
    | _, _ => compare_scalars d1 d2 path
    end.

Definition jsondiff (_d1 _d2 : value) : list record := diff _d1 _d2 "/".

End Jsondiff.

(* ------------------------------------------------------------------ *)
(** ** [fixup_keys] *)

(** The exceptions [fixup_keys] can end with. *)
Inductive error :=
| AssertionError       (* the [assert] of line 90 *)
| AttributeError       (* [k.decode] on a value that is no [bytes] *)
| UnicodeDecodeError   (* [k.decode("utf-8")] on bytes that are no UTF-8 *)
| TypeError            (* [keys[k]] for a key that is no [int] *)
| IndexError           (* [keys[k]] out of range *).

Inductive result (A : Type) :=
| Ok (a : A)
| Raise (e : error).

Arguments Ok {A} a.
Arguments Raise {A} e.

Definition bind {A B : Type} (r : result A) (k : A -> result B) : result B :=
  match r with
  | Ok a => k a
  | Raise e => Raise e
  end.

Notation "x <- r ;; k" := (bind r (fun x => k))
  (at level 61, r at next level, right associativity).

(** [d[k] = v] on a dictionary kept as the list of its items: an equal key
    keeps its place and takes the new value, a new key goes last. *)
Fixpoint dict_set {A : Type} (m : list (atom * A)) (k : atom) (v : A)
  : list (atom * A) :=
  match m with
  | [] => [(k, v)]
  | (k', v') :: m' =>
      if atom_eqb k k' then (k', v) :: m' else (k', v') :: dict_set m' k v
  end.

(** The dictionary a comprehension builds from its items, in order. *)
Definition dict_of {A : Type} (items : list (atom * A)) : list (atom * A) :=
  fold_left (fun acc kv => dict_set acc (fst kv) (snd kv)) items [].

(** The integer an [int] or [bool] key stands for as a list index. *)
Definition as_index (k : atom) : option Z :=
  match k with
  | ABool b => Some (Z.b2z b)
  | AInt z => Some z
  | _ => None
  end.

(** [keys[k]]: a negative index counts from the end of the list. *)
Definition index (keys : list string) (k : atom) : result string :=
  match as_index k with
  | None => Raise TypeError
  | Some z =>
      let n := Z.of_nat (List.length keys) in
      let i := if (z <? 0)%Z then (z + n)%Z else z in
      if ((i <? 0) || (n <=? i))%Z then Raise IndexError
      else match nth_error keys (Z.to_nat i) with
           | Some s => Ok s
           | None => Raise IndexError
           end
  end.

Section Fixup.

(** [bytes.decode("utf-8")], [None] when it raises. *)
Variable decode : list Byte.byte -> option string.

(** [k.decode("utf-8")] for one element of [data[1]]. *)
Definition decode_key (k : value) : result string :=
  match k with
  | VBytes b => match decode b with
                | Some s => Ok s
                | None => Raise UnicodeDecodeError
                end
  | _ => Raise AttributeError
  end.

(** [[k.decode("utf-8") for k in data[1]]] *)
Fixpoint decode_keys (ks : list value) : result (list string) :=
  match ks with
  | [] => Ok []
  | k :: r =>
      s <- decode_key k ;;
      ss <- decode_keys r ;;
      Ok (s :: ss)
  end.

(** [helper]: the comprehension of line 95 evaluates, item by item, the
    key [keys[k]] and then the value [helper(v)]. *)
Fixpoint helper (keys : list string) (d : value) {struct d} : result value :=
  match d with
  | VDict m =>
      r <- (fix items (m : list (atom * value)) : result (list (atom * value)) :=
              match m with
              | [] => Ok []
              | (k, v) :: m' =>
                  name <- index keys k ;;
                  v' <- helper keys v ;;
                  r <- items m' ;;
                  Ok ((AStr name, v') :: r)
              end) m ;;
      Ok (VDict (dict_of r))
  | VList l =>
      r <- (fix elems (l : list value) : result (list value) :=
              match l with
              | [] => Ok []
              | v :: l' =>
                  v' <- helper keys v ;;
                  r <- elems l' ;;
                  Ok (v' :: r)
              end) l ;;
      Ok (VList r)
  | _ => Ok d
  end.

Definition fixup_keys (data : value) : result value :=
  match data with
  | VList [obj; VList ks] =>
      keys <- decode_keys ks ;;
      helper keys obj
  | _ => Raise AssertionError
  end.

End Fixup.

(** A codec for concrete runs: it decodes 7-bit text, as UTF-8 does, and
    rejects every other byte. *)
Definition decode_ascii (b : list Byte.byte) : option string :=
  if forallb (fun x => Nat.ltb (code (ascii_of_byte x)) 128) b
  then Some (string_of_list_byte b) else None.

(** [b"..."] *)
Definition bytes_of (s : string) : list Byte.byte := list_byte_of_string s.

(* ------------------------------------------------------------------ *)
(** ** Induction on documents *)

Section ValueInd.

Variable P : value -> Prop.
Hypothesis HNone : P VNone.
Hypothesis HBool : forall b, P (VBool b).
Hypothesis HInt : forall z, P (VInt z).
Hypothesis HFloat : forall f, P (VFloat f).
Hypothesis HStr : forall s, P (VStr s).
Hypothesis HBytes : forall b, P (VBytes b).
Hypothesis HList : forall l, Forall P l -> P (VList l).
Hypothesis HDict : forall m, Forall (fun kv => P (snd kv)) m -> P (VDict m).

Fixpoint value_ind (d : value) : P d :=
  match d with
  | VNone => HNone
  | VBool b => HBool b
  | VInt z => HInt z
  | VFloat f => HFloat f
  | VStr s => HStr s
  | VBytes b => HBytes b
  | VList l =>
      HList l
        ((fix all (l : list value) : Forall P l :=
            match l with
            | [] => Forall_nil P
            | d' :: r => Forall_cons d' (value_ind d') (all r)
            end) l)
  | VDict m =>
      HDict m
        ((fix all (m : list (atom * value)) : Forall (fun kv => P (snd kv)) m :=
            match m with
            | [] => Forall_nil _
            | kv :: r => Forall_cons kv (value_ind (snd kv)) (all r)
            end) m)
  end.

End ValueInd.

(* ------------------------------------------------------------------ *)
(** ** Auxiliary definitions for the statements *)

(** Equal atoms are those with the same class: the number a [bool] or an
    [int] stands for, the text of a [str], the bytes of a [bytes]. *)
Definition atom_class (a : atom) : Z + (string + string) :=
  match a with
  | ABool b => inl (Z.b2z b)
  | AInt z => inl z
  | AStr s => inr (inl s)
  | ABytes b => inr (inr (string_of_list_byte b))
  end.

(** A path that starts at the root.  [jsondiff] starts [diff] at ["/"] and
    [path_join] keeps a path absolute, so [diff] only sees such paths. *)
Definition absolute (path : string) : bool := startswith path "/".

(** Equality of hashable scalars as Python objects of one type and value
    ([True] and [1] differ here). *)
Definition atom_eq_dec (a b : atom) : {a = b} + {a <> b}.
Proof.
  decide equality;
    [apply Bool.bool_dec | apply Z.eq_dec | apply string_dec
     | apply list_eq_dec, Byte.byte_eq_dec].
Defined.

(** The first position of [x] in [r]. *)
Fixpoint position (x : atom) (r : list atom) : nat :=
  match r with
  | [] => O
  | y :: r' => if atom_eq_dec x y then O else S (position x r')
  end.

(** The choice function that walks a set in the order [t]: of the members
    left it takes the one [t] lists next. *)
Definition choose_order (t : list atom) : list atom -> nat :=
  fun r => position (nth (List.length t - List.length r) t (AInt 0)) r.

(** An order of iteration for concrete runs: always the first member left. *)
Definition first_member : list atom -> nat := fun _ => O.

(** The loop of lines 75-77 over [zip(d1, d2)], from index [n] on. *)
Fixpoint diff_pairs (ignore : list string) (set_sort : bool) (choose : list atom -> nat)
  (path : string) (l1 l2 : list value) (n : nat) : list record :=
  match l1, l2 with
  | v1 :: r1, v2 :: r2 =>
      diff ignore set_sort choose v1 v2 (path_join path (path_join path (str_nat n)))
      ++ diff_pairs ignore set_sort choose path r1 r2 (S n)
  | _, _ => []
  end.

(** The body of the loop of lines 45-47. *)
Definition diff_shared (ignore : list string) (set_sort : bool) (choose : list atom -> nat)
  (path : string) (m1 m2 : list (atom * value)) (k : atom) : list record :=
  match lookup k m1, lookup k m2 with
  | Some v1, Some v2 => diff ignore set_sort choose v1 v2 (path_join path (str k))
  | _, _ => []
  end.

(** No float inside the document is a NaN ([f != f]). *)
Fixpoint nan_free (d : value) : bool :=
  match d with
  | VFloat f => negb (is_nan f)
  | VList l => forallb nan_free l
  | VDict m => forallb (fun kv => nan_free (snd kv)) m
  | _ => true
  end.

Definition is_removed_or_added (r : record) : bool :=
  match r with
  | Removed _ | Added _ => true
  | _ => false
  end.

Definition is_type_changed (r : record) : bool :=
  match r with
  | TypeChanged _ _ _ => true
  | _ => false
  end.

(** The two loops of [helper], named: the items of a dictionary and the
    elements of a list. *)
Fixpoint helper_items (keys : list string) (m : list (atom * value))
  : result (list (atom * value)) :=
  match m with
  | [] => Ok []
  | (k, v) :: m' =>
      name <- index keys k ;;
      v' <- helper keys v ;;
      r <- helper_items keys m' ;;
      Ok ((AStr name, v') :: r)
  end.

Fixpoint helper_elems (keys : list string) (l : list value) : result (list value) :=
  match l with
  | [] => Ok []
  | v :: l' =>
      v' <- helper keys v ;;
      r <- helper_elems keys l' ;;
      Ok (v' :: r)
  end.

(** [k] is a valid index into a list of [n] names: an [int] or [bool]
    from [-n] up to [n - 1]. *)
Definition valid_index (n : nat) (k : atom) : bool :=
  match as_index k with
  | Some z => ((- Z.of_nat n <=? z) && (z <? Z.of_nat n))%Z
  | None => false
  end.

(** Every key of every dictionary inside [d] is a valid index. *)
Fixpoint keys_valid (n : nat) (d : value) : bool :=
  match d with
  | VDict m => forallb (fun kv => valid_index n (fst kv) && keys_valid n (snd kv))%bool m
  | VList l => forallb (keys_valid n) l
  | _ => true
  end.

(** Every element of the key table is a [bytes] that decodes. *)
Definition table_ok (decode : list Byte.byte -> option string) (ks : list value) : bool :=
  forallb (fun k => match k with
                    | VBytes b => match decode b with Some _ => true | None => false end
                    | _ => false
                    end) ks.


(** The specification's wording of some conditions, to compare with what
    the code tests. *)
Module Spec.

(** "a scalar of type integer, string, or binary-blob", booleans excluded. *)
Definition set_eligible (d : value) : bool :=
  match d with
  | VInt _ | VStr _ | VBytes _ => true
  | _ => false
  end.

(** "numerically close within absolute tolerance 1e-5" *)
Definition within_abs_tol (f1 f2 : float) : bool :=
  PrimFloat.leb (PrimFloat.abs (PrimFloat.sub f2 f1)) abs_tol.




End Spec.

(* ------------------------------------------------------------------ *)
(** ** [UniqueDict] *)

(** [k in self] *)
Definition dict_in {A : Type} (k : atom) (self : list (atom * A)) : bool :=
  mem k (map fst self).

(** [f"{k}.{counter}"] *)
Definition suffixed (k : atom) (counter : nat) : atom :=
  AStr (str k ++ "." ++ str_nat counter).

(** The loop of lines 23-25, entered with [valid_key] and [counter]; every
    turn costs one unit of [fuel]. *)
Fixpoint valid_key_loop {A : Type} (fuel : nat) (self : list (atom * A))
  (k valid_key : atom) (counter : nat) : option atom :=
  match fuel with
  | O => None
  | S fuel' =>
      if dict_in valid_key self
      then valid_key_loop fuel' self k (suffixed k counter) (S counter)
      else Some valid_key
  end.

(** The loop of lines 20-26 over the pairs a generator yields, from the
    dictionary [self]; [None] stands for a loop of lines 23-25 that has not
    ended within as many turns as [self] has items, plus two. *)
Fixpoint unique_from {A : Type} (self : list (atom * A)) (pairs : list (atom * A))
  : option (list (atom * A)) :=
  match pairs with
  | [] => Some self
  | (k, v) :: rest =>
      match valid_key_loop (List.length self + 2) self k k 0 with
      | Some valid_key => unique_from (dict_set self valid_key v) rest
      | None => None
      end
  end.

(** [UniqueDict(generator)] *)
Definition UniqueDict {A : Type} (generator : list (atom * A))
  : option (list (atom * A)) :=
  unique_from [] generator.

(* ------------------------------------------------------------------ *)
(** ** [_dump_counts] *)

(** One line [f"{len(obj):6}: {path}"] written to the counts file. *)
Inductive count_line :=
| CountLine (n : nat) (path : string).

(** What a call has written, and the exception it ended with, if any. *)
Definition dumped : Type := list count_line * option error.

(** One call after what came before it: nothing runs after an exception. *)
Definition and_then (a : dumped) (b : unit -> dumped) : dumped :=
  match a with
  | (out, Some e) => (out, Some e)
  | (out, None) => let '(out', e) := b tt in (out ++ out', e)
  end.

(** [path_join(path, k)] for a dictionary key: [os.path.join] takes text;
    with a [str] path, any other key raises [TypeError]. *)
Definition join_key (path : string) (k : atom) : result string :=
  match k with
  | AStr s => Ok (path_join path s)
  | _ => Raise TypeError
  end.

(** Lines 155-163.  The items of a dictionary come in the order of
    insertion, the elements of a list with their index. *)
Fixpoint _dump_counts (obj : value) (path : string) {struct obj} : dumped :=
  match obj with
  | VDict m =>
      and_then ([CountLine (List.length m) path], None)
        (fun _ =>
           (fix items (m : list (atom * value)) : dumped :=
              match m with
              | [] => ([], None)
              | (k, v) :: m' =>
                  match join_key path k with
                  | Ok key => and_then (_dump_counts v key) (fun _ => items m')
                  | Raise e => ([], Some e)
                  end
              end) m)
  | VList l =>
      and_then ([CountLine (List.length l) path], None)
        (fun _ =>
           (fix elems (l : list value) (n : nat) : dumped :=
              match l with
              | [] => ([], None)
              | v :: l' =>
                  and_then (_dump_counts v (path_join path (str_nat n)))
                           (fun _ => elems l' (S n))
              end) l O)
  | _ => ([], None)
  end.

(* ------------------------------------------------------------------ *)
(** ** Auxiliary definitions for further statements *)

(** The path a record is about: the first argument of its format. *)
Definition record_path (r : record) : string :=
  match r with
  | Removed key | Added key => key
  | ListGrown path _ | ListShrunk path _ => path
  | TypeChanged path _ _ | FloatChanged path _ _ | ValueChanged path _ _ => path
  end.

(** What stands behind a record: a count of at least one; two types
    that differ, of values not both numbers; two floats that
    [math.isclose] rejects; two values that [==] tells apart. *)
Definition justified (r : record) : Prop :=
  match r with
  | Removed _ | Added _ => True
  | ListGrown _ n | ListShrunk _ n => 0 < n
  | TypeChanged _ a b =>
      pytype_eqb (type_of a) (type_of b) = false
      /\ (is_number a && is_number b = false)%bool
  | FloatChanged _ f1 f2 => isclose f1 f2 default_rel_tol abs_tol = false
  | ValueChanged _ a b => scalar_eq a b = false
  end.

Definition is_bool_atom (a : atom) : bool :=
  match a with
  | ABool _ => true
  | _ => false
  end.

Definition is_str_atom (a : atom) : bool :=
  match a with
  | AStr _ => true
  | _ => false
  end.


(** Every key of every dictionary inside the document is a [str]. *)
Fixpoint str_keys (d : value) : bool :=
  match d with
  | VDict m => forallb (fun kv => is_str_atom (fst kv) && str_keys (snd kv))%bool m
  | VList l => forallb str_keys l
  | _ => true
  end.

(** Every dictionary inside the document is empty. *)
Fixpoint no_items (d : value) : bool :=
  match d with
  | VDict m => match m with [] => true | _ => false end
  | VList l => forallb no_items l
  | _ => true
  end.


Definition is_bool_value (d : value) : bool :=
  match d with
  | VBool _ => true
  | _ => false
  end.

(** The loops of [_dump_counts], named. *)
Fixpoint dump_items (path : string) (m : list (atom * value)) : dumped :=
  match m with
  | [] => ([], None)
  | (k, v) :: m' =>
      match join_key path k with
      | Ok key => and_then (_dump_counts v key) (fun _ => dump_items path m')
      | Raise e => ([], Some e)
      end
  end.

Fixpoint dump_elems (path : string) (l : list value) (n : nat) : dumped :=
  match l with
  | [] => ([], None)
  | v :: l' =>
      and_then (_dump_counts v (path_join path (str_nat n)))
               (fun _ => dump_elems path l' (S n))
  end.

(** How [UniqueDict] names the items [new] it adds to [self] for the
    pairs it is given: a pair keeps its key when the key is free, and takes
    the key with the first free suffix [.0], [.1], ... otherwise. *)
Fixpoint assigned {A : Type} (self pairs new : list (atom * A)) : Prop :=
  match pairs, new with
  | [], [] => True
  | (k, v) :: pairs', (key, v') :: new' =>
      v' = v
      /\ dict_in key self = false
      /\ (key = k
          \/ (dict_in k self = true
              /\ exists n, key = suffixed k n
                           /\ forall j, j < n -> dict_in (suffixed k j) self = true))
      /\ assigned (self ++ [(key, v)]) pairs' new'
  | _, _ => False
  end.

(** A pattern without [*], [?] and the opening bracket. *)
Definition literal_pattern (p : string) : bool :=
  forallb (fun c => negb (Ascii.eqb c "*" || Ascii.eqb c "?" || Ascii.eqb c "["))%bool
          (chars p).

(* ------------------------------------------------------------------ *)
(** ** Equality of hashable scalars is an equivalence *)

Lemma atom_eqb_class (a b : atom) :
  atom_eqb a b = true <-> atom_class a = atom_class b.
Proof.
  destruct a as [x|x|x|x], b as [y|y|y|y]; simpl; unfold bytes_eqb;
    try (split; [discriminate | intros H; inversion H]; fail).
  - destruct x, y; simpl; split; congruence.
  - rewrite Z.eqb_eq. split; congruence.
  - rewrite Z.eqb_eq. split; [intros E | intros E; inversion E]; congruence.
  - rewrite Z.eqb_eq. split; congruence.
  - rewrite String.eqb_eq. split; congruence.
  - rewrite String.eqb_eq. split; congruence.
Qed.

Lemma atom_eqb_refl (a : atom) : atom_eqb a a = true.
Proof. apply atom_eqb_class. reflexivity. Qed.

Lemma atom_eqb_sym (a b : atom) : atom_eqb a b = atom_eqb b a.
Proof.
  destruct (atom_eqb a b) eqn:E1, (atom_eqb b a) eqn:E2; trivial.
  - apply atom_eqb_class in E1. symmetry in E1. apply atom_eqb_class in E1. congruence.
  - apply atom_eqb_class in E2. symmetry in E2. apply atom_eqb_class in E2. congruence.
Qed.

Lemma atom_eqb_trans (a b c : atom) :
  atom_eqb a b = true -> atom_eqb b c = true -> atom_eqb a c = true.
Proof. rewrite !atom_eqb_class. congruence. Qed.

Lemma atom_eqb_cong (a b c : atom) :
  atom_eqb a b = true -> atom_eqb a c = atom_eqb b c.
Proof.
  intros E. destruct (atom_eqb b c) eqn:E'.
  - eapply atom_eqb_trans; eassumption.
  - destruct (atom_eqb a c) eqn:E''; trivial.
    rewrite atom_eqb_sym in E. rewrite (atom_eqb_trans _ _ _ E E'') in E'. discriminate.
Qed.

(* ------------------------------------------------------------------ *)
(** ** Facts on sets and dictionaries *)

Lemma mem_true (a : atom) (s : list atom) :
  mem a s = true <-> exists b, In b s /\ atom_eqb a b = true.
Proof. unfold mem. apply existsb_exists. Qed.

Lemma mem_In (a : atom) (s : list atom) : In a s -> mem a s = true.
Proof. intros H. apply mem_true. exists a. split; [assumption | apply atom_eqb_refl]. Qed.

Lemma mem_cong (a b : atom) (s : list atom) :
  atom_eqb a b = true -> mem a s = mem b s.
Proof.
  intros E. unfold mem. induction s as [|c s IH]; simpl; trivial.
  rewrite IH. now rewrite (atom_eqb_cong _ _ _ E).
Qed.

Lemma mem_set_of (a : atom) (xs : list atom) : mem a (set_of xs) = mem a xs.
Proof.
  induction xs as [|x xs IH]; simpl; trivial.
  destruct (atom_eqb a x) eqn:E; simpl; trivial.
  rewrite <- IH. clear IH.
  induction (set_of xs) as [|y ys IH]; simpl; trivial.
  destruct (atom_eqb x y) eqn:E'; simpl.
  - rewrite IH.
    assert (atom_eqb a y = false) as ->; trivial.
    destruct (atom_eqb a y) eqn:E''; trivial.
    rewrite atom_eqb_sym in E'. rewrite (atom_eqb_trans _ _ _ E'' E') in E. discriminate.
  - now rewrite IH.
Qed.

Lemma set_diff_self (s : list atom) : set_diff s s = [].
Proof.
  unfold set_diff.
  assert (forall t, incl t s -> filter (fun a => negb (mem a s)) t = []) as H.
  { induction t as [|a t IH]; simpl; intros Hi; trivial.
    rewrite (mem_In a s) by (apply Hi; now left). simpl.
    apply IH. intros x Hx. apply Hi. now right. }
  apply H, incl_refl.
Qed.

Lemma set_and_self (s : list atom) : set_and s s = s.
Proof.
  unfold set_and. rewrite Nat.ltb_irrefl.
  assert (forall t, incl t s -> filter (fun a => mem a s) t = t) as H.
  { induction t as [|a t IH]; simpl; intros Hi; trivial.
    rewrite (mem_In a s) by (apply Hi; now left).
    f_equal. apply IH. intros x Hx. apply Hi. now right. }
  apply H, incl_refl.
Qed.

Lemma set_diff_In (a : atom) (s1 s2 : list atom) :
  In a (set_diff s1 s2) <-> In a s1 /\ mem a s2 = false.
Proof. unfold set_diff. rewrite filter_In, negb_true_iff. tauto. Qed.

Lemma set_and_In (a : atom) (s1 s2 : list atom) :
  In a (set_and s1 s2) -> mem a s1 = true /\ mem a s2 = true.
Proof.
  unfold set_and. destruct (Nat.ltb _ _); rewrite filter_In; intros [H1 H2];
    split; trivial; now apply mem_In.
Qed.

Lemma lookup_mem {A : Type} (k : atom) (m : list (atom * A)) :
  mem k (keys m) = match lookup k m with Some _ => true | None => false end.
Proof.
  unfold keys. rewrite mem_set_of.
  induction m as [|[k' v] m IH]; simpl; trivial.
  destruct (atom_eqb k k'); simpl; trivial.
Qed.

Lemma lookup_In {A : Type} (k : atom) (m : list (atom * A)) (v : A) :
  lookup k m = Some v -> exists k', In (k', v) m /\ atom_eqb k k' = true.
Proof.
  induction m as [|[k' v'] m IH]; simpl; [discriminate|].
  destruct (atom_eqb k k') eqn:E.
  - intros [= ->]. exists k'. auto.
  - intros H. destruct (IH H) as (k'' & Hin & He). exists k''. auto.
Qed.

Lemma drop_nth_perm {A : Type} (i : nat) (l : list A) (x : A) :
  i < List.length l -> Permutation (nth i l x :: drop_nth i l) l.
Proof.
  revert i. induction l as [|y l IH]; simpl; intros i Hi; [lia|].
  destruct i as [|i]; [reflexivity|].
  eapply perm_trans; [apply perm_swap|]. constructor. apply IH. lia.
Qed.

Lemma drop_nth_length {A : Type} (i : nat) (l : list A) :
  i < List.length l -> List.length (drop_nth i l) = pred (List.length l).
Proof.
  revert i. induction l as [|y l IH]; simpl; intros i Hi; [lia|].
  destruct i as [|i]; trivial. simpl. rewrite IH; lia.
Qed.

(* ------------------------------------------------------------------ *)
(** ** Paths *)

Lemma path_join_absolute (a b : string) :
  absolute a = true -> absolute (path_join a b) = true.
Proof.
  unfold absolute, path_join. intros Ha.
  destruct (startswith b "/") eqn:Hb; trivial.
  destruct a as [|c a]; [discriminate|].
  destruct (_ || _)%bool; simpl; exact Ha.
Qed.


(* ------------------------------------------------------------------ *)
(** ** The equations of [diff] *)

Section DiffFacts.

Variable ignore : list string.
Variable set_sort : bool.
Variable choose : list atom -> nat.


Lemma iterate_fuel_perm (n : nat) (s : list atom) :
  List.length s = n -> Permutation (iterate_fuel choose n s) s.
Proof.
  revert s. induction n as [|n IH]; intros s Hn.
  - destruct s; [constructor | discriminate].
  - destruct s as [|x s]; [discriminate|].
    cbn [iterate_fuel].
    set (i := choose (x :: s) mod List.length (x :: s)).
    assert (i < List.length (x :: s)) as Hi
      by (apply Nat.mod_upper_bound; simpl; lia).
    eapply perm_trans; [|apply (drop_nth_perm i (x :: s) x Hi)].
    constructor. apply IH. rewrite drop_nth_length by exact Hi.
    rewrite Hn. reflexivity.
Qed.

(** Whatever [choose] is, a loop over a set visits each member once. *)
Lemma iterate_perm (s : list atom) : Permutation (iterate choose s) s.
Proof. apply iterate_fuel_perm. reflexivity. Qed.

Lemma in_flat_map_iterate {B : Type} (f : atom -> list B) (s : list atom) (r : B) :
  In r (flat_map f (iterate choose s)) <-> exists k, In k s /\ In r (f k).
Proof.
  rewrite in_flat_map. split; intros (k & Hk & Hr); exists k; split; trivial.
  - eapply Permutation_in; [apply iterate_perm | exact Hk].
  - eapply Permutation_in; [apply Permutation_sym, iterate_perm | exact Hk].
Qed.

Lemma diff_ignored (d1 d2 : value) (path : string) :
  _ignore ignore path = true -> diff ignore set_sort choose d1 d2 path = [].
Proof. intros H. destruct d1; simpl; now rewrite H. Qed.

Lemma lookup_sub (k : atom) (m : list (atom * value)) :
  lookup k
    ((fix sub (m : list (atom * value)) :=
        match m with
        | [] => []
        | (k, v) :: m' => (k, diff ignore set_sort choose v) :: sub m'
        end) m)
  = option_map (diff ignore set_sort choose) (lookup k m).
Proof.
  induction m as [|[k' v] m IH]; simpl; trivial.
  destruct (atom_eqb k k'); trivial.
Qed.

(** Two dictionaries: lines 40-51, with [d1[k]] and [d2[k]] read from the
    dictionaries themselves. *)
Lemma diff_dict (m1 m2 : list (atom * value)) (path : string) :
  _ignore ignore path = false ->
  diff ignore set_sort choose (VDict m1) (VDict m2) path =
    flat_map (removed ignore path) (iterate choose (set_diff (keys m1) (keys m2)))
    ++ flat_map (diff_shared ignore set_sort choose path m1 m2)
         (iterate choose (set_and (keys m1) (keys m2)))
    ++ flat_map (added ignore path) (iterate choose (set_diff (keys m2) (keys m1))).
Proof.
  intros H. cbn [diff]. rewrite H.
  f_equal. f_equal. apply flat_map_ext. intros k.
  unfold diff_shared. rewrite lookup_sub.
  destruct (lookup k m1); trivial.
Qed.

Lemma diff_pairs_eq (path : string) (l1 l2 : list value) (n : nat) :
  (fix pairs (l1 l2 : list value) (n : nat) : list record :=
     match l1, l2 with
     | v1 :: r1, v2 :: r2 =>
         let key := path_join path (str_nat n) in
         diff ignore set_sort choose v1 v2 (path_join path key) ++ pairs r1 r2 (S n)
     | _, _ => []
     end) l1 l2 n
  = diff_pairs ignore set_sort choose path l1 l2 n.
Proof.
  revert l2 n. induction l1 as [|v1 l1 IH]; intros [|v2 l2] n; simpl; trivial.
  now rewrite IH.
Qed.

(** Two lists: lines 53-77. *)
Lemma diff_list (l1 l2 : list value) (path : string) :
  _ignore ignore path = false ->
  diff ignore set_sort choose (VList l1) (VList l2) path =
    if set_mode set_sort (VList l1) (VList l2) then
      flat_map (removed ignore path) (iterate choose (set_diff (set_of (atoms l1)) (set_of (atoms l2))))
      ++ flat_map (added ignore path) (iterate choose (set_diff (set_of (atoms l2)) (set_of (atoms l1))))
    else
      length_record path (List.length l1) (List.length l2)
      ++ diff_pairs ignore set_sort choose path l1 l2 0.
Proof.
  intros H. cbn [diff]. rewrite H.
  destruct (set_mode set_sort _ _); trivial.
  now rewrite diff_pairs_eq.
Qed.

(** Any other pair: lines 78-84. *)
Lemma diff_scalars (d1 d2 : value) (path : string) :
  _ignore ignore path = false ->
  (is_list d1 && is_list d2 = false)%bool ->
  pytype_eqb (type_of d1) TDict && pytype_eqb (type_of d2) TDict = false ->
  diff ignore set_sort choose d1 d2 path = compare_scalars d1 d2 path.
Proof.
  intros H Hl Hd.
  destruct d1; cbn [diff]; rewrite H; trivial;
    destruct d2; trivial; discriminate.
Qed.


End DiffFacts.

(* ------------------------------------------------------------------ *)
(** ** More facts on keys and loops *)

(** Every order of the members is the order of iteration of some choice
    function. *)
Lemma position_nth (x : atom) (r : list atom) :
  In x r -> position x r < List.length r /\ nth (position x r) r x = x.
Proof.
  induction r as [|y r IH]; simpl; [tauto|].
  destruct (atom_eq_dec x y) as [->|Hne].
  - intros _. split; [lia | reflexivity].
  - intros [H|H]; [congruence|]. destruct (IH H). split; [lia | assumption].
Qed.

Lemma iterate_choose_order (t : list atom) :
  forall u pre r,
    t = (pre ++ u)%list -> Permutation u r ->
    iterate_fuel (choose_order t) (List.length r) r = u.
Proof.
  induction u as [|x u IH]; intros pre r Ht Hp.
  - apply Permutation_nil in Hp. now subst r.
  - pose proof (Permutation_length Hp) as Hlen.
    destruct r as [|y r]; [discriminate|].
    cbn [List.length iterate_fuel].
    assert (choose_order t (y :: r) = position x (y :: r)) as ->.
    { unfold choose_order. rewrite Ht, length_app, <- Hlen.
      replace (List.length pre + List.length (x :: u) - List.length (x :: u))
        with (List.length pre) by lia.
      now rewrite nth_middle. }
    assert (In x (y :: r)) as Hin
      by (eapply Permutation_in; [exact Hp | now left]).
    destruct (position_nth x (y :: r) Hin) as [Hlt Hnth].
    change (S (List.length r)) with (List.length (y :: r)).
    rewrite Nat.mod_small by exact Hlt.
    rewrite (nth_indep _ y x) by exact Hlt. rewrite Hnth. f_equal.
    assert (Permutation u (drop_nth (position x (y :: r)) (y :: r))) as Hp'.
    { apply Permutation_cons_inv with (a := x).
      eapply perm_trans; [exact Hp|].
      apply Permutation_sym. rewrite <- Hnth at 1.
      now apply drop_nth_perm. }
    replace (List.length r)
      with (List.length (drop_nth (position x (y :: r)) (y :: r)))
      by (rewrite drop_nth_length by exact Hlt; reflexivity).
    apply (IH (pre ++ [x])%list); trivial.
    now rewrite <- app_assoc.
Qed.

Lemma iterate_any_order (s t : list atom) :
  Permutation t s -> iterate (choose_order t) s = t.
Proof. intros H. now apply (iterate_choose_order t t [] s). Qed.


Lemma NoDup_set_of (xs : list atom) : NoDup (set_of xs).
Proof.
  induction xs as [|a xs IH]; simpl; constructor.
  - rewrite filter_In, atom_eqb_refl. intros [_ H]. discriminate.
  - now apply NoDup_filter.
Qed.

Lemma iterate_singleton (choose : list atom -> nat) (a : atom) :
  iterate choose [a] = [a].
Proof.
  unfold iterate. cbn [List.length iterate_fuel].
  rewrite Nat.mod_1_r. reflexivity.
Qed.

Lemma keys_lookup {A : Type} (k : atom) (m : list (atom * A)) :
  mem k (keys m) = true <-> lookup k m <> None.
Proof.
  rewrite lookup_mem. destruct (lookup k m); split; congruence.
Qed.

Lemma keys_lookup_none {A : Type} (k : atom) (m : list (atom * A)) :
  mem k (keys m) = false <-> lookup k m = None.
Proof.
  rewrite lookup_mem. destruct (lookup k m); split; congruence.
Qed.

Lemma is_int_str_bytes_iff (d : value) :
  is_int_str_bytes d = true <->
  (exists b, d = VBool b) \/ (exists z, d = VInt z) \/
  (exists s, d = VStr s) \/ (exists b, d = VBytes b).
Proof.
  split.
  - destruct d; try discriminate; intros _; eauto.
  - intros [[? ->]|[[? ->]|[[? ->]|[? ->]]]]; reflexivity.
Qed.

Lemma set_mode_iff (set_sort : bool) (l1 l2 : list value) :
  set_mode set_sort (VList l1) (VList l2) = true <->
  set_sort = true /\
  (forall d, In d l1 \/ In d l2 -> is_int_str_bytes d = true).
Proof.
  unfold set_mode. rewrite !andb_true_iff, !forallb_forall.
  split.
  - intros [[Hs H1] H2]. split; trivial. intros d [H|H]; auto.
  - intros [Hs H]. repeat split; auto.
Qed.

(* ------------------------------------------------------------------ *)
(** ** Ordered lists and dictionaries *)



(** C5 -- Two dictionaries at a path that is not ignored: the output is
    three passes in this order.  First a Removed record at [path/key] for
    every key of the left dictionary that the right one lacks, unless that
    path is ignored; then the output of [diff] at [path/key] on the two
    values of every key both have; then an Added record at [path/key] for
    every key of the right dictionary that the left one lacks, unless
    ignored.  Inside a pass the keys come in the order of the set's
    iteration, each once.  For {"a":1,"b":2} against {"b":2,"c":3} the
    output is Removed "/a" then Added "/c", whatever the order. *)
Theorem diff_dict_three_passes :
  (forall ignore set_sort choose m1 m2 path,
      _ignore ignore path = false ->
      exists only_left shared only_right,
        Permutation only_left (set_diff (keys m1) (keys m2)) /\
        Permutation shared (set_and (keys m1) (keys m2)) /\
        Permutation only_right (set_diff (keys m2) (keys m1)) /\
        (forall k, In k only_left <->
                   In k (keys m1) /\ lookup k m2 = None) /\
        (forall k, In k shared ->
                   lookup k m1 <> None /\ lookup k m2 <> None) /\
        (forall k, lookup k m1 <> None -> lookup k m2 <> None ->
                   mem k shared = true) /\
        (forall k, In k only_right <->
                   In k (keys m2) /\ lookup k m1 = None) /\
        diff ignore set_sort choose (VDict m1) (VDict m2) path =
          flat_map (fun k =>
                      let key := path_join path (str k) in
                      if _ignore ignore key then [] else [Removed key]) only_left
          ++ flat_map (fun k =>
                         match lookup k m1, lookup k m2 with
                         | Some v1, Some v2 =>
                             diff ignore set_sort choose v1 v2 (path_join path (str k))
                         | _, _ => []
                         end) shared
          ++ flat_map (fun k =>
                         let key := path_join path (str k) in
                         if _ignore ignore key then [] else [Added key]) only_right)
  /\ (forall choose,
         jsondiff [] false choose
           (VDict [(AStr "a", VInt 1); (AStr "b", VInt 2)])
           (VDict [(AStr "b", VInt 2); (AStr "c", VInt 3)])
         = [Removed "/a"; Added "/c"]).
Proof.
  split.
  - intros ignore set_sort choose m1 m2 path Hi.
    exists (iterate choose (set_diff (keys m1) (keys m2))),
           (iterate choose (set_and (keys m1) (keys m2))),
           (iterate choose (set_diff (keys m2) (keys m1))).
    assert (forall s k, In k (iterate choose s) <-> In k s) as Hit.
    { intros s k. split; intros H.
      - eapply Permutation_in; [apply iterate_perm | exact H].
      - eapply Permutation_in; [apply Permutation_sym, iterate_perm | exact H]. }
    split; [apply iterate_perm|]. split; [apply iterate_perm|].
    split; [apply iterate_perm|].
    split; [|split; [|split; [|split]]].
    + intros k. rewrite Hit, set_diff_In, keys_lookup_none. tauto.
    + intros k H. apply Hit, set_and_In in H. now rewrite <- !keys_lookup.
    + intros k H1 H2. apply keys_lookup in H1, H2.
      apply mem_true in H1 as (a & Ha & Eka). apply mem_true in H2 as (b & Hb & Ekb).
      assert (exists c, In c (set_and (keys m1) (keys m2)) /\ atom_eqb k c = true)
        as (c & Hc & Ekc).
      { unfold set_and. destruct (Nat.ltb _ _).
        - exists a. split; trivial. apply filter_In. split; trivial.
          rewrite <- (mem_cong k a) by exact Eka. apply mem_true. eauto.
        - exists b. split; trivial. apply filter_In. split; trivial.
          rewrite <- (mem_cong k b) by exact Ekb. apply mem_true. eauto. }
      apply mem_true. exists c. split; trivial. now apply Hit.
    + intros k. rewrite Hit, set_diff_In, keys_lookup_none. tauto.
    + now rewrite diff_dict by exact Hi.
  - intros choose. unfold jsondiff. rewrite diff_dict by reflexivity.
    assert (set_diff (keys [(AStr "a", VInt 1); (AStr "b", VInt 2)])
                     (keys [(AStr "b", VInt 2); (AStr "c", VInt 3)]) = [AStr "a"])
      as -> by reflexivity.
    assert (set_and (keys [(AStr "a", VInt 1); (AStr "b", VInt 2)])
                    (keys [(AStr "b", VInt 2); (AStr "c", VInt 3)]) = [AStr "b"])
      as -> by reflexivity.
    assert (set_diff (keys [(AStr "b", VInt 2); (AStr "c", VInt 3)])
                     (keys [(AStr "a", VInt 1); (AStr "b", VInt 2)]) = [AStr "c"])
      as -> by reflexivity.
    rewrite !iterate_singleton. reflexivity.
Qed.

(** [diff_dict_three_passes] on a concrete input. *)
Lemma diff_dict_three_passes_witness :
  exists only_left shared only_right,
    Permutation only_left [AStr "a"] /\
    Permutation shared [AStr "b"] /\
    Permutation only_right [AStr "c"] /\
    diff [] false first_member
      (VDict [(AStr "a", VInt 1); (AStr "b", VInt 2)])
      (VDict [(AStr "b", VInt 2); (AStr "c", VInt 3)]) "/" =
      flat_map (fun k => [Removed (path_join "/" (str k))]) only_left
      ++ flat_map (fun k =>
                     match lookup k [(AStr "a", VInt 1); (AStr "b", VInt 2)],
                           lookup k [(AStr "b", VInt 2); (AStr "c", VInt 3)] with
                     | Some v1, Some v2 =>
                         diff [] false first_member v1 v2 (path_join "/" (str k))
                     | _, _ => []
                     end) shared
      ++ flat_map (fun k => [Added (path_join "/" (str k))]) only_right.
Proof.
  destruct (proj1 diff_dict_three_passes [] false first_member
              [(AStr "a", VInt 1); (AStr "b", VInt 2)]
              [(AStr "b", VInt 2); (AStr "c", VInt 3)] "/" eq_refl)
    as (l & s & r & Hl & Hs & Hr & _ & _ & _ & _ & E).
  exists l, s, r. repeat split; assumption.
Defined.

(* ------------------------------------------------------------------ *)
(** ** Lists compared as sets *)

(** C1, as the specification states it, fails: with set-sort on, the lists
    [True] and [False] pass the test of lines 53-57 and are compared as
    sets, although a boolean is none of integer, string and binary blob in
    the specification's sense. *)
Lemma bool_lists_compared_as_sets :
  set_mode true (VList [VBool true]) (VList [VBool false]) = true
  /\ (forallb Spec.set_eligible [VBool true]
      && forallb Spec.set_eligible [VBool false] = false)%bool
  /\ jsondiff [] true first_member (VList [VBool true]) (VList [VBool false])
     = [Removed "/True"; Added "/False"]
  /\ jsondiff [] false first_member (VList [VBool true]) (VList [VBool false])
     = [ValueChanged "/0" (VBool true) (VBool false)].
Proof. repeat split. Qed.

(** C1, amended -- Two lists at a path that is not ignored are compared as
    sets exactly when set-sort is on and every element of both lists is an
    [int] (a [bool] is one), a [str] or a [bytes].  The output then is a
    Removed record for each member of the left set that the right list has
    no equal of, followed by an Added record for each member of the right
    set that the left list has no equal of (unless the record's path is
    ignored), and nothing else: no recursion, no type or value record.
    Otherwise the lists are compared in order.  A list that holds a float is
    never compared as a set. *)
Theorem set_mode_selection :
  forall ignore set_sort choose l1 l2 path,
    _ignore ignore path = false ->
    (set_mode set_sort (VList l1) (VList l2) = true <->
       set_sort = true /\
       forall d, In d l1 \/ In d l2 ->
         (exists b, d = VBool b) \/ (exists z, d = VInt z) \/
         (exists s, d = VStr s) \/ (exists b, d = VBytes b))
    /\ (forall f, In (VFloat f) l1 \/ In (VFloat f) l2 ->
          set_mode set_sort (VList l1) (VList l2) = false)
    /\ (set_mode set_sort (VList l1) (VList l2) = true ->
          exists only_left only_right,
            (forall a, In a only_left <->
                       In a (set_of (atoms l1)) /\ mem a (atoms l2) = false) /\
            (forall a, In a only_right <->
                       In a (set_of (atoms l2)) /\ mem a (atoms l1) = false) /\
            NoDup only_left /\ NoDup only_right /\
            forallb is_removed_or_added
              (diff ignore set_sort choose (VList l1) (VList l2) path) = true /\
            diff ignore set_sort choose (VList l1) (VList l2) path =
              flat_map (fun a =>
                          let key := path_join path (str a) in
                          if _ignore ignore key then [] else [Removed key]) only_left
              ++ flat_map (fun a =>
                             let key := path_join path (str a) in
                             if _ignore ignore key then [] else [Added key]) only_right)
    /\ (set_mode set_sort (VList l1) (VList l2) = false ->
          diff ignore set_sort choose (VList l1) (VList l2) path =
            length_record path (List.length l1) (List.length l2)
            ++ diff_pairs ignore set_sort choose path l1 l2 0).
Proof.
  intros ignore set_sort choose l1 l2 path Hi.
  assert (forall s k, In k (iterate choose s) <-> In k s) as Hit.
  { intros s k. split; intros H.
    - eapply Permutation_in; [apply iterate_perm | exact H].
    - eapply Permutation_in; [apply Permutation_sym, iterate_perm | exact H]. }
  split; [|split; [|split]].
  - rewrite set_mode_iff. split; intros [Hs H]; split; trivial; intros d Hd.
    + now apply is_int_str_bytes_iff, H.
    + now apply is_int_str_bytes_iff, H.
  - intros f Hf. destruct (set_mode set_sort (VList l1) (VList l2)) eqn:E; trivial.
    apply set_mode_iff in E as [_ E]. now specialize (E _ Hf).
  - intros Hm. rewrite diff_list by exact Hi. rewrite Hm.
    exists (iterate choose (set_diff (set_of (atoms l1)) (set_of (atoms l2)))),
           (iterate choose (set_diff (set_of (atoms l2)) (set_of (atoms l1)))).
    split; [|split; [|split; [|split; [|split]]]].
    + intros a. now rewrite Hit, set_diff_In, mem_set_of.
    + intros a. now rewrite Hit, set_diff_In, mem_set_of.
    + eapply Permutation_NoDup; [apply Permutation_sym, iterate_perm|].
      apply NoDup_filter, NoDup_set_of.
    + eapply Permutation_NoDup; [apply Permutation_sym, iterate_perm|].
      apply NoDup_filter, NoDup_set_of.
    + apply forallb_forall. intros r Hr.
      apply in_app_or in Hr as [Hr|Hr]; apply in_flat_map in Hr as (a & _ & Hr).
      * unfold removed in Hr. cbv zeta in Hr.
        destruct (_ignore ignore _) in Hr; simpl in Hr; [tauto|].
        destruct Hr as [<-|[]]. reflexivity.
      * unfold added in Hr. cbv zeta in Hr.
        destruct (_ignore ignore _) in Hr; simpl in Hr; [tauto|].
        destruct Hr as [<-|[]]. reflexivity.
    + reflexivity.
  - intros Hm. rewrite diff_list by exact Hi. now rewrite Hm.
Qed.

(** [set_mode_selection] on a concrete input. *)
Lemma set_mode_selection_witness :
  (set_mode true (VList [VBool true; VInt 5]) (VList [VStr "x"]) = true <->
     true = true /\
     forall d, In d [VBool true; VInt 5] \/ In d [VStr "x"] ->
       (exists b, d = VBool b) \/ (exists z, d = VInt z) \/
       (exists s, d = VStr s) \/ (exists b, d = VBytes b)).
Proof.
  apply (set_mode_selection [] true first_member
           [VBool true; VInt 5] [VStr "x"] "/" eq_refl).
Defined.

(* ------------------------------------------------------------------ *)
(** ** Scalars *)

Local Open Scope float_scope.

(** C2, as the specification states it, fails: 1e10 and 1e10 + 1 differ
    by 1, far more than the absolute tolerance, and [diff] emits nothing:
    [math.isclose] also accepts a difference within its default relative
    tolerance of 1e-09, here 10. *)
Lemma large_floats_close_by_relative_tolerance :
  Spec.within_abs_tol 10000000000 10000000001 = false
  /\ PrimFloat.eqb (10000000001 - 10000000000) 1 = true
  /\ jsondiff [] false first_member
       (VDict [(AStr "x", VFloat 10000000000)])
       (VDict [(AStr "x", VFloat 10000000001)]) = [].
Proof. repeat split. Qed.

(** C2, amended -- Two floats at a path that is not ignored: [diff] emits
    no record exactly when [math.isclose(f1, f2, abs_tol=0.00001)] holds,
    that is when [f1 == f2], or neither is infinite and [|f2 - f1|] is at
    most [1e-09 * |f2|], [1e-09 * |f1|] or [0.00001] (so a NaN is close to
    nothing); otherwise it emits the one ValueChanged record in the float
    format.  [{"x": 1.0}] against [{"x": 1.0000001}] gives no record,
    against [{"x": 1.1}] the one record for ["/x"]. *)
Theorem diff_floats :
  (forall ignore set_sort choose f1 f2 path,
      _ignore ignore path = false ->
      diff ignore set_sort choose (VFloat f1) (VFloat f2) path =
        if isclose f1 f2 default_rel_tol abs_tol then []
        else [FloatChanged path f1 f2])
  /\ (forall f1 f2,
         isclose f1 f2 default_rel_tol abs_tol =
           ((f1 =? f2)
            || (negb (is_infinity f1 || is_infinity f2)
                && ((abs (f2 - f1) <=? abs (default_rel_tol * f2))
                    || (abs (f2 - f1) <=? abs (default_rel_tol * f1))
                    || (abs (f2 - f1) <=? abs_tol))))%bool)
  /\ (forall choose,
         jsondiff [] false choose
           (VDict [(AStr "x", VFloat 1)])
           (VDict [(AStr "x", VFloat 0x1.000001ad7f29bp+0)]) = [])
  /\ (forall choose,
         jsondiff [] false choose
           (VDict [(AStr "x", VFloat 1)])
           (VDict [(AStr "x", VFloat 0x1.199999999999ap+0)])
         = [FloatChanged "/x" 1 0x1.199999999999ap+0]).
Proof.
  split; [|split; [|split]].
  - intros ignore set_sort choose f1 f2 path Hi.
    now rewrite diff_scalars by trivial.
  - intros f1 f2. unfold isclose.
    destruct (f1 =? f2); trivial.
    destruct (is_infinity f1 || is_infinity f2)%bool; trivial.
  - intros choose. unfold jsondiff. rewrite diff_dict by reflexivity.
    assert (set_and (keys [(AStr "x", VFloat 1)])
                    (keys [(AStr "x", VFloat 0x1.000001ad7f29bp+0)]) = [AStr "x"])
      as -> by reflexivity.
    rewrite iterate_singleton. reflexivity.
  - intros choose. unfold jsondiff. rewrite diff_dict by reflexivity.
    assert (set_and (keys [(AStr "x", VFloat 1)])
                    (keys [(AStr "x", VFloat 0x1.199999999999ap+0)]) = [AStr "x"])
      as -> by reflexivity.
    rewrite iterate_singleton. reflexivity.
Qed.

(** [diff_floats] on a concrete input. *)
Lemma diff_floats_witness :
  diff [] false first_member (VFloat 1) (VFloat 2) "/x" =
    if isclose 1 2 default_rel_tol abs_tol then [] else [FloatChanged "/x" 1 2].
Proof.
  apply (proj1 diff_floats [] false first_member 1 2 "/x" eq_refl).
Defined.

Local Close Scope float_scope.

Lemma float_eq_int_value (f : float) (z : Z) :
  float_eq_int f z = true <->
  exists q, float_value f = Some q /\ Qeq q (inject_Z z).
Proof.
  unfold float_eq_int. destruct (float_value f) as [q|].
  - rewrite Qeq_bool_iff. split.
    + intros H. exists q. auto.
    + intros (q' & [= <-] & H). exact H.
  - split; [discriminate | intros (q & H & _); discriminate].
Qed.

(** C7 -- An integer and a float at a path that is not ignored, in either
    order: [diff] emits no TypeChanged record; it emits nothing when the
    two are equal as numbers (the float has a finite value and that value
    is the integer), and the one ValueChanged record otherwise.  [1]
    against [1.0] gives no record, [1] against [1.5] the one record. *)
Theorem diff_int_float :
  (forall ignore set_sort choose z f path,
      _ignore ignore path = false ->
      diff ignore set_sort choose (VInt z) (VFloat f) path =
        (if float_eq_int f z then [] else [ValueChanged path (VInt z) (VFloat f)])
      /\ diff ignore set_sort choose (VFloat f) (VInt z) path =
        (if float_eq_int f z then [] else [ValueChanged path (VFloat f) (VInt z)])
      /\ existsb is_type_changed
           (diff ignore set_sort choose (VInt z) (VFloat f) path) = false
      /\ existsb is_type_changed
           (diff ignore set_sort choose (VFloat f) (VInt z) path) = false)
  /\ (forall f z,
         float_eq_int f z = true <->
         exists q, float_value f = Some q /\ Qeq q (inject_Z z))
  /\ (forall choose, jsondiff [] false choose (VInt 1) (VFloat 1%float) = [])
  /\ (forall choose,
         jsondiff [] false choose (VInt 1) (VFloat 1.5%float)
         = [ValueChanged "/" (VInt 1) (VFloat 1.5%float)]).
Proof.
  split; [|split; [|split]].
  - intros ignore set_sort choose z f path Hi.
    rewrite !diff_scalars by trivial. unfold compare_scalars. cbn.
    destruct (float_eq_int f z); repeat split.
  - apply float_eq_int_value.
  - reflexivity.
  - reflexivity.
Qed.

(** [diff_int_float] on a concrete input. *)
Lemma diff_int_float_witness :
  diff [] false first_member (VInt 2) (VFloat 2%float) "/n" = []
  /\ diff [] false first_member (VFloat 2%float) (VInt 2) "/n" = [].
Proof.
  destruct (proj1 diff_int_float [] false first_member 2%Z 2%float "/n" eq_refl)
    as (H1 & H2 & _).
  split; [exact H1 | exact H2].
Defined.

(** C10 -- A boolean and an integer at a path that is not ignored, in
    either order: [diff] emits no TypeChanged record (both are numbers for
    the test of line 78); it emits nothing when they are equal as numbers
    ([True] and [1], [False] and [0]) and the one ValueChanged record
    otherwise. *)
Theorem diff_bool_int :
  (forall ignore set_sort choose b z path,
      _ignore ignore path = false ->
      diff ignore set_sort choose (VBool b) (VInt z) path =
        (if Z.eqb (Z.b2z b) z then [] else [ValueChanged path (VBool b) (VInt z)])
      /\ diff ignore set_sort choose (VInt z) (VBool b) path =
        (if Z.eqb (Z.b2z b) z then [] else [ValueChanged path (VInt z) (VBool b)])
      /\ existsb is_type_changed
           (diff ignore set_sort choose (VBool b) (VInt z) path) = false
      /\ existsb is_type_changed
           (diff ignore set_sort choose (VInt z) (VBool b) path) = false)
  /\ (forall choose, jsondiff [] false choose (VBool true) (VInt 1) = [])
  /\ (forall choose, jsondiff [] false choose (VBool false) (VInt 0) = [])
  /\ (forall choose,
         jsondiff [] false choose (VBool true) (VInt 2)
         = [ValueChanged "/" (VBool true) (VInt 2)]).
Proof.
  split; [|repeat split].
  intros ignore set_sort choose b z path Hi.
  rewrite !diff_scalars by trivial. unfold compare_scalars. cbn.
  destruct (Z.eqb (Z.b2z b) z); repeat split.
Qed.

(** [diff_bool_int] on a concrete input. *)
Lemma diff_bool_int_witness :
  diff [] false first_member (VBool false) (VInt 0) "/flag" = []
  /\ diff [] false first_member (VInt 0) (VBool false) "/flag" = [].
Proof.
  destruct (proj1 diff_bool_int [] false first_member false 0%Z "/flag" eq_refl)
    as (H1 & H2 & _).
  split; [exact H1 | exact H2].
Defined.

(* ------------------------------------------------------------------ *)
(** ** A document against itself *)

Lemma flat_map_nil {A B : Type} (f : A -> list B) (l : list A) :
  (forall x, In x l -> f x = []) -> flat_map f l = [].
Proof.
  induction l as [|x l IH]; simpl; intros H; trivial.
  rewrite (H x) by now left. apply IH. intros y Hy. apply H. now right.
Qed.

Lemma scalar_eq_refl (d : value) :
  is_list d = false -> pytype_eqb (type_of d) TDict = false ->
  pytype_eqb (type_of d) TFloat = false ->
  scalar_eq d d = true.
Proof.
  destruct d; simpl; try discriminate; intros _ _ _; trivial.
  - apply Bool.eqb_reflx.
  - apply Z.eqb_refl.
  - apply String.eqb_refl.
  - apply String.eqb_refl.
Qed.

Lemma pytype_eqb_refl (t : pytype) : pytype_eqb t t = true.
Proof. destruct t; reflexivity. Qed.

Lemma diff_same (set_sort : bool) (choose : list atom -> nat) (d : value) :
  nan_free d = true ->
  forall path, diff [] set_sort choose d d path = [].
Proof.
  induction d as [| b | z | f | s | b | l IH | m IH] using value_ind; intros Hn path;
    try (rewrite diff_scalars by trivial; unfold compare_scalars;
         rewrite pytype_eqb_refl, andb_false_r;
         rewrite scalar_eq_refl by trivial; reflexivity).
  - rewrite diff_scalars by trivial. unfold compare_scalars.
    rewrite pytype_eqb_refl, andb_false_r.
    simpl in Hn. unfold is_nan in Hn. rewrite negb_involutive in Hn.
    unfold isclose. now rewrite Hn.
  - rewrite diff_list by trivial.
    destruct (set_mode set_sort (VList l) (VList l)).
    + now rewrite set_diff_self.
    + unfold length_record. rewrite Nat.ltb_irrefl. cbn [app].
      simpl in Hn. generalize 0.
      induction IH as [|d l Hd _ IHl]; intros n; simpl; trivial.
      simpl in Hn. apply andb_true_iff in Hn as [Hn1 Hn2].
      rewrite Hd by exact Hn1. now apply IHl.
  - rewrite diff_dict by trivial.
    rewrite set_diff_self, set_and_self. cbn [flat_map app iterate iterate_fuel List.length].
    rewrite app_nil_r. apply flat_map_nil. intros k _.
    unfold diff_shared. destruct (lookup k m) as [v|] eqn:E; trivial.
    apply lookup_In in E as (k' & Hin & _).
    rewrite Forall_forall in IH. apply (IH _ Hin).
    simpl in Hn. rewrite forallb_forall in Hn. apply (Hn _ Hin).
Qed.

(** C3, as the specification states it, fails on a NaN, which
    [json.load] reads from the text [NaN]: a NaN is close to no float, not
    even to itself. *)
Lemma nan_differs_from_itself :
  jsondiff [] false first_member (VFloat nan) (VFloat nan)
  = [FloatChanged "/" nan nan]
  /\ jsondiff [] true first_member (VList [VFloat nan]) (VList [VFloat nan])
     = [FloatChanged "/0" nan nan].
Proof. split; reflexivity. Qed.

(** C3, amended -- For every document that holds no NaN, with no ignore
    rule, either set-sort setting and any order of iteration over sets,
    [jsondiff] of the document against itself emits no record. *)
Theorem jsondiff_reflexive :
  forall set_sort choose d,
    nan_free d = true ->
    jsondiff [] set_sort choose d d = [].
Proof.
  intros set_sort choose d Hn. unfold jsondiff. now apply diff_same.
Qed.

(** [jsondiff_reflexive] on a concrete input. *)
Lemma jsondiff_reflexive_witness :
  jsondiff [] true first_member
    (VDict [(AStr "a", VList [VInt 1; VFloat 1.5%float; VNone]);
            (AInt 7, VDict [(ABool true, VStr "x")])])
    (VDict [(AStr "a", VList [VInt 1; VFloat 1.5%float; VNone]);
            (AInt 7, VDict [(ABool true, VStr "x")])]) = [].
Proof.
  apply (jsondiff_reflexive true first_member
           (VDict [(AStr "a", VList [VInt 1; VFloat 1.5%float; VNone]);
                   (AInt 7, VDict [(ABool true, VStr "x")])])).
  reflexivity.
Defined.

(* ------------------------------------------------------------------ *)
(** ** More ignore rules, fewer records *)

Lemma ignore_true (rules : list string) (path : string) :
  _ignore rules path = true <-> exists f, In f rules /\ fnmatch path f = true.
Proof. unfold _ignore. apply existsb_exists. Qed.

Lemma ignore_incl (R R' : list string) :
  incl R R' -> forall p, _ignore R p = true -> _ignore R' p = true.
Proof.
  intros Hi p. rewrite !ignore_true. intros (f & Hf & Hm). exists f. auto.
Qed.

Section Monotone.

Variables R R' : list string.
Variable set_sort : bool.
Variables choose choose' : list atom -> nat.

(** [R'] ignores every path that [R] ignores. *)
Hypothesis covers : forall p, _ignore R p = true -> _ignore R' p = true.

Lemma covers_false (p : string) : _ignore R' p = false -> _ignore R p = false.
Proof.
  intros H. destruct (_ignore R p) eqn:E; trivial.
  apply covers in E. congruence.
Qed.

Lemma removed_mono (path : string) (k : atom) (r : record) :
  In r (removed R' path k) -> In r (removed R path k).
Proof.
  unfold removed. destruct (_ignore R' _) eqn:E; [intros []|].
  now rewrite (covers_false _ E).
Qed.

Lemma added_mono (path : string) (k : atom) (r : record) :
  In r (added R' path k) -> In r (added R path k).
Proof.
  unfold added. destruct (_ignore R' _) eqn:E; [intros []|].
  now rewrite (covers_false _ E).
Qed.

Lemma diff_mono (d1 : value) :
  forall d2 path r,
    In r (diff R' set_sort choose' d1 d2 path) ->
    In r (diff R set_sort choose d1 d2 path).
Proof.
  induction d1 as [| b | z | f | s | b | l1 IH | m1 IH] using value_ind;
    intros d2 path r;
    (destruct (_ignore R' path) eqn:Hi; [now rewrite diff_ignored|]);
    pose proof (covers_false _ Hi) as Hi';
    try (rewrite !diff_scalars by trivial; trivial; fail).
  - (* lists *)
    destruct d2 as [| | | | | | l2 |]; try (now rewrite !diff_scalars by trivial).
    rewrite !diff_list by trivial.
    destruct (set_mode set_sort (VList l1) (VList l2)).
    + rewrite !in_app_iff, !in_flat_map_iterate.
      intros [(k & Hk & H)|(k & Hk & H)]; [left|right]; exists k; split; trivial.
      * now apply removed_mono.
      * now apply added_mono.
    + rewrite !in_app_iff. intros [H|H]; [now left|right].
      revert H. generalize 0. revert l2.
      induction IH as [|v1 l1 Hv _ IHl]; intros [|v2 l2] n; simpl; trivial.
      rewrite !in_app_iff. intros [H|H]; [left; now apply Hv | right; now apply IHl].
  - (* dictionaries *)
    destruct d2 as [| | | | | | | m2]; try (now rewrite !diff_scalars by trivial).
    rewrite !diff_dict by trivial.
    rewrite !in_app_iff, !in_flat_map_iterate.
    intros [(k & Hk & H)|[(k & Hk & H)|(k & Hk & H)]];
      [left | right; left | right; right]; exists k; split; trivial.
    + now apply removed_mono.
    + revert H. unfold diff_shared.
      destruct (lookup k m1) as [v1|] eqn:E1; trivial.
      destruct (lookup k m2) as [v2|]; trivial.
      apply lookup_In in E1 as (k' & Hin & _).
      rewrite Forall_forall in IH. apply (IH _ Hin).
    + now apply added_mono.
Qed.

End Monotone.

(** C8 -- For all documents, when the rule set [R'] ignores every path
    that [R] ignores (as it does when it holds all the globs of [R]), every
    record that [jsondiff] emits under [R'] is one it emits under [R],
    whatever the order of iteration over sets in the two runs: more or
    broader ignore rules add no record. *)
Theorem ignore_monotone :
  (forall R R' set_sort choose choose' d1 d2,
      (forall p, _ignore R p = true -> _ignore R' p = true) ->
      incl (jsondiff R' set_sort choose' d1 d2) (jsondiff R set_sort choose d1 d2))
  /\ (forall R R' set_sort choose choose' d1 d2,
         incl R R' ->
         incl (jsondiff R' set_sort choose' d1 d2) (jsondiff R set_sort choose d1 d2)).
Proof.
  split.
  - intros R R' set_sort choose choose' d1 d2 H r. unfold jsondiff.
    now apply diff_mono.
  - intros R R' set_sort choose choose' d1 d2 H r. unfold jsondiff.
    apply diff_mono. now apply ignore_incl.
Qed.

(** [ignore_monotone] on a concrete input. *)
Lemma ignore_monotone_witness :
  incl (jsondiff ["/b"; "/a/*"] false first_member
          (VDict [(AStr "a", VList [VInt 1]); (AStr "b", VInt 2)])
          (VDict [(AStr "a", VList [VInt 3]); (AStr "b", VInt 4)]))
       (jsondiff ["/b"] false first_member
          (VDict [(AStr "a", VList [VInt 1]); (AStr "b", VInt 2)])
          (VDict [(AStr "a", VList [VInt 3]); (AStr "b", VInt 4)])).
Proof.
  apply (proj2 ignore_monotone ["/b"] ["/b"; "/a/*"] false first_member first_member).
  intros f [<-|[]]. now left.
Defined.

(* ------------------------------------------------------------------ *)
(** ** [fixup_keys]: when it fails and what it returns *)

Lemma helper_dict (keys : list string) (m : list (atom * value)) :
  helper keys (VDict m) = (r <- helper_items keys m ;; Ok (VDict (dict_of r))).
Proof.
  cbn [helper]. f_equal.
  induction m as [|[k v] m IH]; cbn [helper_items]; trivial.
  now rewrite IH.
Qed.

Lemma helper_list (keys : list string) (l : list value) :
  helper keys (VList l) = (r <- helper_elems keys l ;; Ok (VList r)).
Proof.
  cbn [helper]. f_equal.
  induction l as [|v l IH]; cbn [helper_elems]; trivial.
  now rewrite IH.
Qed.

Lemma index_ok (keys : list string) (k : atom) (name : string) :
  index keys k = Ok name <->
  exists z, as_index k = Some z
            /\ (- Z.of_nat (List.length keys) <= z < Z.of_nat (List.length keys))%Z
            /\ nth_error keys (Z.to_nat (z mod Z.of_nat (List.length keys))) = Some name.
Proof.
  unfold index. destruct (as_index k) as [z|].
  2: { split; [discriminate | intros (z & [=] & _)]. }
  set (n := Z.of_nat (List.length keys)).
  assert ((if (z <? 0)%Z then (z + n)%Z else z) = (z mod n)%Z
          \/ ((if (z <? 0)%Z then (z + n)%Z else z) <? 0)%Z
              || (n <=? (if (z <? 0)%Z then (z + n)%Z else z))%Z = true) as Hcase.
  { destruct (Z.ltb_spec z 0).
    - destruct (Z.ltb_spec (z + n) 0); [now right|]. left.
      apply Z.mod_unique with (q := (-1)%Z); lia.
    - destruct (Z.leb_spec n z); [right; apply orb_true_r|]. left.
      symmetry. apply Z.mod_small. lia. }
  split.
  - intros H. exists z. split; trivial.
    destruct (((if (z <? 0)%Z then (z + n)%Z else z) <? 0)%Z
              || (n <=? (if (z <? 0)%Z then (z + n)%Z else z))%Z)%bool eqn:E;
      [discriminate|].
    destruct Hcase as [Hc|Hc]; [|congruence].
    apply orb_false_iff in E as [E1 E2].
    apply Z.ltb_ge in E1. apply Z.leb_gt in E2.
    split.
    + destruct (Z.ltb_spec z 0); lia.
    + rewrite <- Hc. destruct (nth_error keys _); congruence.
  - intros (z' & [= <-] & Hr & Hn).
    assert (((if (z <? 0)%Z then (z + n)%Z else z) <? 0)%Z
            || (n <=? (if (z <? 0)%Z then (z + n)%Z else z))%Z = false) as E.
    { apply orb_false_iff. destruct (Z.ltb_spec z 0); split;
        try apply Z.ltb_ge; try apply Z.leb_gt; lia. }
    rewrite E. destruct Hcase as [Hc|Hc]; [|congruence].
    rewrite Hc. fold n in Hn. now rewrite Hn.
Qed.

Lemma index_total (keys : list string) (k : atom) :
  (exists name, index keys k = Ok name) <-> valid_index (List.length keys) k = true.
Proof.
  unfold valid_index. split.
  - intros (name & H). apply index_ok in H as (z & -> & Hr & _).
    apply andb_true_iff. split; [apply Z.leb_le | apply Z.ltb_lt]; lia.
  - destruct (as_index k) as [z|] eqn:E; [|discriminate].
    intros H. apply andb_true_iff in H as [H1 H2].
    apply Z.leb_le in H1. apply Z.ltb_lt in H2.
    destruct (nth_error keys (Z.to_nat (z mod Z.of_nat (List.length keys))))
      as [name|] eqn:En.
    + exists name. apply index_ok. exists z. auto.
    + apply nth_error_None in En.
      pose proof (Z.mod_pos_bound z (Z.of_nat (List.length keys))). lia.
Qed.


Lemma helper_total (keys : list string) (d : value) :
  (exists v, helper keys d = Ok v) <-> keys_valid (List.length keys) d = true.
Proof.
  induction d as [| b | z | f | s | b | l IH | m IH] using value_ind;
    try (split; [reflexivity | eexists; reflexivity]).
  - rewrite helper_list. cbn [keys_valid].
    assert ((exists r, helper_elems keys l = Ok r)
            <-> forallb (keys_valid (List.length keys)) l = true) as H.
    { induction IH as [|d l Hd _ IHl]; cbn [helper_elems forallb].
      - split; eauto.
      - rewrite andb_true_iff, <- Hd, <- IHl. split.
        + intros (r & H). destruct (helper keys d); [|discriminate].
          destruct (helper_elems keys l); [|discriminate]. split; eauto.
        + intros [(v & ->) (r & ->)]. eexists. reflexivity. }
    rewrite <- H. split.
    + intros (v & Hv). destruct (helper_elems keys l); [eauto | discriminate].
    + intros (r & ->). eexists. reflexivity.
  - rewrite helper_dict. cbn [keys_valid].
    assert ((exists r, helper_items keys m = Ok r)
            <-> forallb (fun kv => valid_index (List.length keys) (fst kv)
                                   && keys_valid (List.length keys) (snd kv)) m = true)
      as H.
    { induction IH as [|[k d] m Hd _ IHm]; cbn [helper_items forallb fst snd].
      - split; eauto.
      - rewrite !andb_true_iff, <- index_total, <- IHm. simpl in Hd. rewrite <- Hd.
        split.
        + intros (r & H). destruct (index keys k); [|discriminate].
          destruct (helper keys d); [|discriminate].
          destruct (helper_items keys m); [|discriminate]. repeat split; eauto.
        + intros [[(n & ->) (v & ->)] (r & ->)]. eexists. reflexivity. }
    rewrite <- H. split.
    + intros (v & Hv). destruct (helper_items keys m); [eauto | discriminate].
    + intros (r & ->). eexists. reflexivity.
Qed.

Lemma decode_keys_total (decode : list Byte.byte -> option string) (ks : list value) :
  (exists names, decode_keys decode ks = Ok names) <-> table_ok decode ks = true.
Proof.
  unfold table_ok. induction ks as [|k ks IH]; cbn [decode_keys forallb].
  - split; eauto.
  - rewrite andb_true_iff, <- IH. split.
    + intros (names & H). destruct k; try discriminate. cbn [decode_key] in H.
      destruct (decode b); [|discriminate].
      destruct (decode_keys decode ks); [split; eauto | discriminate].
    + intros [Hk (names & ->)]. destruct k; try discriminate. cbn [decode_key].
      destruct (decode b); [|discriminate]. eexists. reflexivity.
Qed.

Lemma decode_keys_length (decode : list Byte.byte -> option string)
  (ks : list value) (names : list string) :
  decode_keys decode ks = Ok names -> List.length names = List.length ks.
Proof.
  revert names. induction ks as [|k ks IH]; cbn [decode_keys]; intros names.
  - now intros [= <-].
  - destruct (decode_key decode k); [|discriminate]. cbn [bind].
    destruct (decode_keys decode ks) as [ss|]; [|discriminate].
    intros [= <-]. simpl. now rewrite (IH ss).
Qed.


Lemma helper_elems_ok (keys : list string) (l l' : list value) :
  helper_elems keys l = Ok l' <->
  Forall2 (fun d d' => helper keys d = Ok d') l l'.
Proof.
  revert l'. induction l as [|d l IH]; intros l'; cbn [helper_elems].
  - split; [intros [= <-]; constructor | intros H; now inversion H].
  - split.
    + destruct (helper keys d) as [d'|] eqn:Ed; [|discriminate]. cbn [bind].
      destruct (helper_elems keys l) as [r|]; [|discriminate].
      intros [= <-]. constructor; trivial. now apply IH.
    + intros H. inversion H as [|? d' ? r Hd Hr]; subst.
      rewrite Hd. cbn [bind]. apply IH in Hr. now rewrite Hr.
Qed.

Lemma helper_items_ok (keys : list string) (m items : list (atom * value)) :
  helper_items keys m = Ok items <->
  Forall2 (fun kv kv' =>
             exists name, index keys (fst kv) = Ok name
                          /\ fst kv' = AStr name
                          /\ helper keys (snd kv) = Ok (snd kv')) m items.
Proof.
  revert items. induction m as [|[k v] m IH]; intros items; cbn [helper_items].
  - split; [intros [= <-]; constructor | intros H; now inversion H].
  - split.
    + destruct (index keys k) as [name|] eqn:Ek; [|discriminate]. cbn [bind].
      destruct (helper keys v) as [v'|] eqn:Ev; [|discriminate]. cbn [bind].
      destruct (helper_items keys m) as [r|]; [|discriminate].
      intros [= <-]. constructor; [|now apply IH].
      exists name. auto.
    + intros H. inversion H as [|? [k' v'] ? r (name & Hk & Hn & Hv) Hr]; subst.
      cbn [fst snd] in *. subst k'. rewrite Hk, Hv. cbn [bind].
      apply IH in Hr. now rewrite Hr.
Qed.

Lemma dict_set_fresh {A : Type} (m : list (atom * A)) (k : atom) (v : A) :
  mem k (map fst m) = false -> dict_set m k v = m ++ [(k, v)].
Proof.
  induction m as [|[k' v'] m IH]; simpl; trivial.
  destruct (atom_eqb k k'); [discriminate|]. simpl. intros H. now rewrite IH.
Qed.





(* ------------------------------------------------------------------ *)
(** ** The path matcher *)

Lemma until_close_length (s stuff rest : list ascii) :
  until_close s = Some (stuff, rest) -> List.length rest < List.length s.
Proof.
  revert stuff. induction s as [|c s IH]; simpl; intros stuff; [discriminate|].
  destruct (Ascii.eqb c "]").
  - intros [= _ <-]. lia.
  - destruct (until_close s) as [[st r]|]; [|discriminate].
    intros [= _ <-]. specialize (IH st eq_refl). lia.
Qed.

Lemma take_if_length (c : ascii) (s : list ascii) :
  List.length (snd (take_if c s)) <= List.length s.
Proof.
  destruct s as [|c' s]; simpl; trivial.
  destruct (Ascii.eqb c' c); simpl; lia.
Qed.

Lemma split_class_length (s stuff rest : list ascii) :
  split_class s = Some (stuff, rest) -> List.length rest < List.length s.
Proof.
  unfold split_class.
  pose proof (take_if_length "!" s) as H1.
  destruct (take_if "!" s) as [bang s1]. simpl in H1.
  pose proof (take_if_length "]" s1) as H2.
  destruct (take_if "]" s1) as [brk s2]. simpl in H2.
  destruct (until_close s2) as [[st r]|] eqn:E; [|discriminate].
  intros [= _ <-]. apply until_close_length in E. lia.
Qed.

(** The fuel [translate] starts with is enough: more fuel gives the same
    tokens. *)
Lemma translate_fuel_enough (n : nat) (pat : list ascii) :
  List.length pat <= n ->
  translate_fuel n pat = translate_fuel (List.length pat) pat.
Proof.
  revert pat. induction n as [n IH] using lt_wf_ind. intros pat Hn.
  destruct pat as [|c r]; [destruct n; reflexivity|].
  destruct n as [|n]; [simpl in Hn; lia|].
  simpl in Hn. cbn [translate_fuel List.length].
  assert (forall q, List.length q <= List.length r ->
                    translate_fuel n q = translate_fuel (List.length r) q) as Hq.
  { intros q Hlen. rewrite (IH n) by lia.
    destruct (Nat.eq_dec (List.length r) n) as [<-|Hne].
    - rewrite (IH (List.length r)); trivial; lia.
    - rewrite (IH (List.length r)); trivial; lia. }
  destruct (Ascii.eqb c "*"); [now rewrite Hq|].
  destruct (Ascii.eqb c "?"); [now rewrite Hq|].
  destruct (Ascii.eqb c "[").
  - destruct (split_class r) as [[stuff rest]|] eqn:E.
    + apply split_class_length in E. rewrite Hq; trivial; lia.
    + now rewrite Hq.
  - now rewrite Hq.
Qed.

Lemma chars_length (s : string) : List.length (chars s) = String.length s.
Proof. induction s; simpl; congruence. Qed.

Lemma chars_app (a b : string) : chars (a ++ b) = (chars a ++ chars b)%list.
Proof. induction a; simpl; congruence. Qed.

Lemma chars_inj (a b : string) : chars a = chars b -> a = b.
Proof.
  intros H. rewrite <- (string_of_list_ascii_of_string a),
              <- (string_of_list_ascii_of_string b).
  unfold chars in H. now rewrite H.
Qed.

Lemma chars_of_list (l : list ascii) : chars (string_of_list_ascii l) = l.
Proof. apply list_ascii_of_string_of_list_ascii. Qed.

Lemma glob_star (ts : list token) (s : list ascii) :
  glob_match (Star :: ts) s = true <->
  exists s1 s2, s = (s1 ++ s2)%list /\ glob_match ts s2 = true.
Proof.
  induction s as [|c s IH].
  - cbn [glob_match]. rewrite orb_false_r. split.
    + intros H. exists [], []. auto.
    + intros (s1 & s2 & E & H). symmetry in E. apply app_eq_nil in E as [_ ->].
      exact H.
  - change (glob_match (Star :: ts) (c :: s))
      with (glob_match ts (c :: s) || glob_match (Star :: ts) s)%bool.
    rewrite orb_true_iff, IH. split.
    + intros [H|(s1 & s2 & -> & H)].
      * exists [], (c :: s). auto.
      * exists (c :: s1), s2. auto.
    + intros ([|c' s1] & s2 & E & H); simpl in E.
      * left. now rewrite E.
      * right. injection E as -> ->. eauto.
Qed.

Lemma glob_one (t : token) (ts : list token) (s : list ascii) :
  t <> Star ->
  glob_match (t :: ts) s = true <->
  exists c s', s = c :: s' /\ token_accepts t c = true /\ glob_match ts s' = true.
Proof.
  intros Ht. destruct t; try congruence; destruct s as [|x s]; cbn [glob_match];
    try (split; [discriminate | intros (? & ? & [=] & _)]);
    rewrite andb_true_iff;
    (split; [intros [H1 H2]; eauto | intros (? & ? & [= <- <-] & H1 & H2); auto]).
Qed.

Lemma translate_cons (c : ascii) (p : string) :
  translate (String c p) =
    if Ascii.eqb c "*" then Star :: translate p
    else if Ascii.eqb c "?" then AnyChar :: translate p
    else if Ascii.eqb c "[" then
      match split_class (chars p) with
      | None => Lit "[" :: translate p
      | Some (stuff, rest) => class_of stuff :: translate (string_of_list_ascii rest)
      end
    else Lit c :: translate p.
Proof.
  unfold translate. cbn [String.length chars list_ascii_of_string translate_fuel].
  fold (chars p).
  destruct (Ascii.eqb c "*"), (Ascii.eqb c "?"), (Ascii.eqb c "["); trivial.
  destruct (split_class (chars p)) as [[stuff rest]|] eqn:E; trivial.
  f_equal. rewrite chars_of_list.
  apply split_class_length in E. rewrite chars_length in E.
  rewrite translate_fuel_enough by lia.
  now rewrite <- (chars_length (string_of_list_ascii rest)), chars_of_list.
Qed.

Lemma until_close_none (s : list ascii) :
  ~ In "]"%char s -> until_close s = None.
Proof.
  induction s as [|c s IH]; simpl; intros H; trivial.
  destruct (Ascii.eqb_spec c "]") as [->|_]; [tauto|].
  rewrite IH; tauto.
Qed.

Lemma split_class_none (s : list ascii) :
  ~ In "]"%char s -> split_class s = None.
Proof.
  intros H. unfold split_class.
  assert (forall c t, ~ In "]"%char t -> ~ In "]"%char (snd (take_if c t))) as Ht.
  { intros c [|c' t] Hn; simpl; trivial.
    destruct (Ascii.eqb c' c); simpl; trivial. simpl in Hn. tauto. }
  pose proof (Ht "!"%char s H) as H1.
  destruct (take_if "!" s) as [bang s1]. simpl in H1.
  pose proof (Ht "]"%char s1 H1) as H2.
  destruct (take_if "]" s1) as [brk s2]. simpl in H2.
  now rewrite until_close_none.
Qed.

Lemma fnmatch_head (t : token) (name p q : string) :
  t <> Star -> translate q = t :: translate p ->
  fnmatch name q = true <->
  exists c b, name = String c b /\ token_accepts t c = true /\ fnmatch b p = true.
Proof.
  intros Ht Hq. unfold fnmatch. rewrite Hq, (glob_one t) by exact Ht. split.
  - intros (c & s' & E & Hc & H). exists c, (string_of_list_ascii s').
    rewrite chars_of_list. repeat split; trivial.
    apply chars_inj. simpl. now rewrite chars_of_list.
  - intros (c & b & -> & Hc & H). exists c, (chars b). auto.
Qed.

(** C9, as the specification states it, fails in its last part: a
    pattern with an unclosed bracket is no pattern that matches nothing; it
    matches the path that holds the bracket as written. *)
Lemma unclosed_bracket_matches_itself :
  _ignore ["/[a"] "/[a" = true
  /\ jsondiff [] false first_member
       (VDict [(AStr "[a", VInt 1)]) (VDict [(AStr "[a", VInt 2)])
     = [ValueChanged "/[a" (VInt 1) (VInt 2)]
  /\ jsondiff ["/[a"] false first_member
       (VDict [(AStr "[a", VInt 1)]) (VDict [(AStr "[a", VInt 2)])
     = [].
Proof. repeat split. Qed.

(** C9, amended -- [_ignore(path)] is true exactly when [fnmatch] matches
    the path against one of the rules; it is a total function and raises
    nothing.  Matching is of the whole path and case-sensitive: the empty
    pattern matches the empty path only; [*] matches any run of characters,
    [/] included; [?] matches exactly one character, whichever; a character
    other than [*], [?] and the opening bracket matches itself only.  An
    opening bracket that no bracket closes is taken literally: it matches an
    opening bracket, and the pattern matches the paths that hold it as
    written. *)
Theorem ignore_glob_semantics :
  (forall rules path,
      _ignore rules path = true <->
      exists f, In f rules /\ fnmatch path f = true)
  /\ (forall name, fnmatch name "" = true <-> name = "")
  /\ (forall name p,
         fnmatch name (String "*" p) = true <->
         exists a b, name = (a ++ b)%string /\ fnmatch b p = true)
  /\ (forall name p,
         fnmatch name (String "?" p) = true <->
         exists c b, name = String c b /\ fnmatch b p = true)
  /\ (forall name c p,
         c <> "*"%char -> c <> "?"%char -> c <> "["%char ->
         (fnmatch name (String c p) = true <->
          exists b, name = String c b /\ fnmatch b p = true))
  /\ (forall name p,
         ~ In "]"%char (chars p) ->
         (fnmatch name (String "[" p) = true <->
          exists b, name = String "[" b /\ fnmatch b p = true))
  /\ fnmatch "/a/b/c" "/a*" = true
  /\ fnmatch "/A" "/a" = false
  /\ fnmatch "/ab" "/?" = false
  /\ fnmatch "/[a" "/[a" = true
  /\ fnmatch "/a" "/[a" = false.
Proof.
  split; [apply ignore_true|].
  split; [|split; [|split; [|split; [|split; [|repeat split]]]]].
  - intros name. unfold fnmatch. cbn [translate translate_fuel String.length glob_match].
    destruct name; simpl; split; congruence.
  - intros name p. unfold fnmatch. rewrite translate_cons. cbn [Ascii.eqb Bool.eqb].
    rewrite glob_star. split.
    + intros (s1 & s2 & E & H).
      exists (string_of_list_ascii s1), (string_of_list_ascii s2).
      rewrite chars_of_list. split; trivial.
      apply chars_inj. now rewrite chars_app, !chars_of_list.
    + intros (a & b & -> & H). exists (chars a), (chars b).
      split; trivial. apply chars_app.
  - intros name p. rewrite (fnmatch_head AnyChar name p); [| discriminate |].
    + split; [intros (c & b & E & _ & H) | intros (c & b & E & H)]; eauto.
    + now rewrite translate_cons.
  - intros name c p H1 H2 H3. rewrite (fnmatch_head (Lit c) name p); [| discriminate |].
    + cbn [token_accepts]. split.
      * intros (c' & b & -> & E & H). apply Ascii.eqb_eq in E as <-. eauto.
      * intros (b & -> & H). exists c, b. rewrite Ascii.eqb_refl. auto.
    + rewrite translate_cons.
      apply Ascii.eqb_neq in H1, H2, H3. now rewrite H1, H2, H3.
  - intros name p Hp. rewrite (fnmatch_head (Lit "[") name p); [| discriminate |].
    + cbn [token_accepts]. split.
      * intros (c' & b & -> & E & H). apply Ascii.eqb_eq in E as <-. eauto.
      * intros (b & -> & H). exists "["%char, b. auto.
    + rewrite translate_cons. cbn [Ascii.eqb Bool.eqb]. now rewrite split_class_none.
Qed.

(** [ignore_glob_semantics] on a concrete input. *)
Lemma ignore_glob_semantics_witness :
  fnmatch "/[ab" (String "[" "ab") = true <->
  exists b, "/[ab" = String "[" b /\ fnmatch b "ab" = true.
Proof.
  apply (proj1 (proj2 (proj2 (proj2 (proj2 (proj2 ignore_glob_semantics)))))
           "/[ab" "ab").
  intros [H|[H|[]]]; discriminate.
Defined.

(* ------------------------------------------------------------------ *)
(** ** What every emitted record satisfies *)

Section DiffEmits.

Variable ignore : list string.
Variable set_sort : bool.
Variable choose : list atom -> nat.

(** [I] holds of the paths [diff] is called with, [P] of what each [print]
    emits at such a path. *)
Variable I : string -> Prop.
Variable P : record -> Prop.

Hypothesis I_join : forall a b, I a -> I (path_join a b).
Hypothesis P_removed :
  forall path k, I path -> _ignore ignore path = false ->
                 forall r, In r (removed ignore path k) -> P r.
Hypothesis P_added :
  forall path k, I path -> _ignore ignore path = false ->
                 forall r, In r (added ignore path k) -> P r.
Hypothesis P_length :
  forall path n1 n2, I path -> _ignore ignore path = false ->
                     forall r, In r (length_record path n1 n2) -> P r.
Hypothesis P_scalars :
  forall path d1 d2, I path -> _ignore ignore path = false ->
                     forall r, In r (compare_scalars d1 d2 path) -> P r.

Lemma diff_emits (d1 : value) :
  forall d2 path r,
    I path -> In r (diff ignore set_sort choose d1 d2 path) -> P r.
Proof.
  induction d1 as [| b | z | f | s | b | l1 IH | m1 IH] using value_ind;
    intros d2 path r HI;
    (destruct (_ignore ignore path) eqn:Hi; [now rewrite diff_ignored|]);
    try (rewrite diff_scalars by trivial; now apply P_scalars).
  - destruct d2 as [| | | | | | l2 |];
      try (rewrite diff_scalars by trivial; now apply P_scalars).
    rewrite diff_list by trivial.
    destruct (set_mode set_sort (VList l1) (VList l2)).
    + rewrite in_app_iff, !in_flat_map.
      intros [(k & _ & H)|(k & _ & H)];
        [eapply P_removed | eapply P_added]; eassumption.
    + rewrite in_app_iff. intros [H|H]; [eapply P_length; eassumption|].
      revert H. generalize 0. revert l2.
      induction IH as [|v1 l1 Hv _ IHl]; intros [|v2 l2] n; simpl; try tauto.
      rewrite in_app_iff. intros [H|H]; [|now apply (IHl l2 (S n))].
      eapply Hv; [|exact H]. now apply I_join.
  - destruct d2 as [| | | | | | | m2];
      try (rewrite diff_scalars by trivial; now apply P_scalars).
    rewrite diff_dict by trivial.
    rewrite !in_app_iff, !in_flat_map.
    intros [(k & _ & H)|[(k & _ & H)|(k & _ & H)]];
      [eapply P_removed; eassumption | | eapply P_added; eassumption].
    revert H. unfold diff_shared.
    destruct (lookup k m1) as [v1|] eqn:E1; [|intros []].
    destruct (lookup k m2) as [v2|]; [|intros []].
    apply lookup_In in E1 as (k' & Hin & _).
    rewrite Forall_forall in IH. intros H. eapply (IH _ Hin); [|exact H].
    now apply I_join.
Qed.

End DiffEmits.

Lemma removed_cases (ignore : list string) (path : string) (k : atom) (r : record) :
  In r (removed ignore path k) ->
  r = Removed (path_join path (str k))
  /\ _ignore ignore (path_join path (str k)) = false.
Proof.
  unfold removed. cbv zeta.
  destruct (_ignore ignore (path_join path (str k))); [intros []|].
  intros [<-|[]]. auto.
Qed.

Lemma added_cases (ignore : list string) (path : string) (k : atom) (r : record) :
  In r (added ignore path k) ->
  r = Added (path_join path (str k))
  /\ _ignore ignore (path_join path (str k)) = false.
Proof.
  unfold added. cbv zeta.
  destruct (_ignore ignore (path_join path (str k))); [intros []|].
  intros [<-|[]]. auto.
Qed.

Lemma length_record_cases (path : string) (n1 n2 : nat) (r : record) :
  In r (length_record path n1 n2) ->
  exists n, 0 < n /\ (r = ListGrown path n \/ r = ListShrunk path n).
Proof.
  unfold length_record.
  destruct (Nat.ltb_spec n1 n2); [|destruct (Nat.ltb_spec n2 n1)].
  - intros [<-|[]]. exists (n2 - n1). split; [lia | auto].
  - intros [<-|[]]. exists (n1 - n2). split; [lia | auto].
  - intros [].
Qed.

Lemma compare_scalars_cases (d1 d2 : value) (path : string) (r : record) :
  In r (compare_scalars d1 d2 path) ->
  (r = TypeChanged path d1 d2
   /\ pytype_eqb (type_of d1) (type_of d2) = false
   /\ (is_number d1 && is_number d2 = false)%bool)
  \/ (exists f1 f2, d1 = VFloat f1 /\ d2 = VFloat f2
                    /\ r = FloatChanged path f1 f2
                    /\ isclose f1 f2 default_rel_tol abs_tol = false)
  \/ (r = ValueChanged path d1 d2 /\ scalar_eq d1 d2 = false).
Proof.
  unfold compare_scalars.
  destruct (negb (is_number d1 && is_number d2)
            && negb (pytype_eqb (type_of d1) (type_of d2)))%bool eqn:E.
  - intros [<-|[]]. left. apply andb_true_iff in E as [E1 E2].
    apply negb_true_iff in E1, E2. auto.
  - assert (forall r', In r' (if scalar_eq d1 d2 then []
                              else [ValueChanged path d1 d2]) ->
                       r' = ValueChanged path d1 d2 /\ scalar_eq d1 d2 = false) as Hv.
    { intros r'. destruct (scalar_eq d1 d2); [intros []|]. intros [<-|[]]. auto. }
    destruct d1; try (intros H; right; right; now apply Hv).
    destruct d2; try (intros H; right; right; now apply Hv).
    destruct (isclose f f0 default_rel_tol abs_tol) eqn:Ec; [intros []|].
    intros [<-|[]]. right; left. exists f, f0. auto.
Qed.

(** X1 -- Every record [jsondiff] emits is about an absolute path: from an
    absolute path [diff] only reaches absolute paths, and each record names
    the path of the call that printed it or a key joined to it. *)
Theorem jsondiff_paths_absolute :
  forall ignore set_sort choose d1 d2 r,
    In r (jsondiff ignore set_sort choose d1 d2) ->
    absolute (record_path r) = true.
Proof.
  intros ignore set_sort choose d1 d2 r. unfold jsondiff.
  apply (diff_emits ignore set_sort choose
           (fun p => absolute p = true)
           (fun r => absolute (record_path r) = true)); trivial.
  - intros a b. apply path_join_absolute.
  - intros path k Ha _ r' H. apply removed_cases in H as [-> _].
    now apply path_join_absolute.
  - intros path k Ha _ r' H. apply added_cases in H as [-> _].
    now apply path_join_absolute.
  - intros path n1 n2 Ha _ r' H.
    apply length_record_cases in H as (n & _ & [->| ->]); exact Ha.
  - intros path a b Ha _ r' H.
    apply compare_scalars_cases in H
      as [(-> & _)|[(f1 & f2 & _ & _ & -> & _)|(-> & _)]]; exact Ha.
Qed.

Lemma diff_path_not_ignored (ignore : list string) (set_sort : bool)
  (choose : list atom -> nat) (d1 d2 : value) (path : string) (r : record) :
  In r (diff ignore set_sort choose d1 d2 path) ->
  _ignore ignore (record_path r) = false.
Proof.
  apply (diff_emits ignore set_sort choose (fun _ => True)
           (fun r => _ignore ignore (record_path r) = false)); trivial.
  - intros p k _ _ r' H. now apply removed_cases in H as [-> H].
  - intros p k _ _ r' H. now apply added_cases in H as [-> H].
  - intros p n1 n2 _ Hi r' H.
    apply length_record_cases in H as (n & _ & [->| ->]); exact Hi.
  - intros p a b _ Hi r' H.
    apply compare_scalars_cases in H
      as [(-> & _)|[(f1 & f2 & _ & _ & -> & _)|(-> & _)]]; exact Hi.
Qed.

(** X2 -- No record is about an ignored path: whatever the documents, the
    path of every record [diff] emits matches none of the ignore rules. *)
Theorem diff_never_reports_ignored :
  forall ignore set_sort choose d1 d2 path r,
    In r (diff ignore set_sort choose d1 d2 path) ->
    _ignore ignore (record_path r) = false.
Proof.
  intros ignore set_sort choose d1 d2 path r. apply diff_path_not_ignored.
Qed.

(** X3 -- No record is vacuous.  A ListGrown or ListShrunk record carries a
    count of at least one; a TypeChanged record holds two values of
    different types that are not both numbers; a float ValueChanged record
    holds two floats that [math.isclose] rejects; any other ValueChanged
    record holds two values that [==] tells apart. *)
Theorem diff_records_justified :
  forall ignore set_sort choose d1 d2 path r,
    In r (diff ignore set_sort choose d1 d2 path) -> justified r.
Proof.
  intros ignore set_sort choose d1 d2 path r.
  apply (diff_emits ignore set_sort choose (fun _ => True) justified); trivial.
  - intros p k _ _ r' H. now apply removed_cases in H as [-> _].
  - intros p k _ _ r' H. now apply added_cases in H as [-> _].
  - intros p n1 n2 _ _ r' H.
    apply length_record_cases in H as (n & Hn & [->| ->]); exact Hn.
  - intros p a b _ _ r' H.
    apply compare_scalars_cases in H
      as [(-> & H1 & H2)|[(f1 & f2 & _ & _ & -> & H)|(-> & H)]]; simpl; auto.
Qed.

(** [jsondiff_paths_absolute] on a concrete input. *)
Lemma jsondiff_paths_absolute_witness :
  absolute (record_path (Removed "/a")) = true.
Proof.
  apply (jsondiff_paths_absolute [] false first_member
           (VDict [(AStr "a", VInt 1)]) (VDict []) (Removed "/a")).
  vm_compute. left. reflexivity.
Defined.

(** [diff_never_reports_ignored] on a concrete input. *)
Lemma diff_never_reports_ignored_witness :
  _ignore ["/b*"] (record_path (Removed "/a")) = false.
Proof.
  apply (diff_never_reports_ignored ["/b*"] false first_member
           (VDict [(AStr "a", VInt 1); (AStr "b", VInt 2)]) (VDict []) "/"
           (Removed "/a")).
  vm_compute. left. reflexivity.
Defined.

(** [diff_records_justified] on a concrete input. *)
Lemma diff_records_justified_witness :
  justified (ListShrunk "/" 2).
Proof.
  apply (diff_records_justified [] false first_member
           (VList [VInt 1; VInt 2; VNone]) (VList [VInt 1]) "/"
           (ListShrunk "/" 2)).
  vm_compute. left. reflexivity.
Defined.

(* ------------------------------------------------------------------ *)
(** ** The order of iteration does not matter *)

Lemma Permutation_flat_map_pointwise {A B : Type} (f g : A -> list B) (l : list A) :
  (forall x, In x l -> Permutation (f x) (g x)) ->
  Permutation (flat_map f l) (flat_map g l).
Proof.
  induction l as [|x l IH]; simpl; intros H; [constructor|].
  apply Permutation_app; [apply H; now left|].
  apply IH. intros y Hy. apply H. now right.
Qed.

Lemma flat_map_iterate_perm {B : Type} (choose choose' : list atom -> nat)
  (f g : atom -> list B) (s : list atom) :
  (forall x, In x s -> Permutation (f x) (g x)) ->
  Permutation (flat_map f (iterate choose s)) (flat_map g (iterate choose' s)).
Proof.
  intros H.
  eapply perm_trans; [apply Permutation_flat_map, iterate_perm|].
  eapply perm_trans; [apply Permutation_flat_map_pointwise, H|].
  apply Permutation_flat_map, Permutation_sym, iterate_perm.
Qed.

(** X4 -- Two runs that walk Python's sets in different orders emit the
    same records, each as many times, only in a different order. *)
Theorem diff_order_independent :
  forall ignore set_sort choose choose' d1 d2 path,
    Permutation (diff ignore set_sort choose d1 d2 path)
                (diff ignore set_sort choose' d1 d2 path).
Proof.
  intros ignore set_sort choose choose' d1.
  induction d1 as [| b | z | f | s | b | l1 IH | m1 IH] using value_ind;
    intros d2 path;
    (destruct (_ignore ignore path) eqn:Hi;
     [rewrite !diff_ignored by trivial; constructor|]);
    try (rewrite !diff_scalars by trivial; apply Permutation_refl).
  - destruct d2 as [| | | | | | l2 |];
      try (rewrite !diff_scalars by trivial; apply Permutation_refl).
    rewrite !diff_list by trivial.
    destruct (set_mode set_sort (VList l1) (VList l2)).
    + apply Permutation_app; apply flat_map_iterate_perm; intros; apply Permutation_refl.
    + apply Permutation_app; [apply Permutation_refl|].
      generalize 0. revert l2.
      induction IH as [|v1 l1 Hv _ IHl]; intros [|v2 l2] n; simpl;
        try apply Permutation_refl.
      apply Permutation_app; [apply Hv | apply IHl].
  - destruct d2 as [| | | | | | | m2];
      try (rewrite !diff_scalars by trivial; apply Permutation_refl).
    rewrite !diff_dict by trivial.
    apply Permutation_app; [|apply Permutation_app];
      apply flat_map_iterate_perm; intros k _; try apply Permutation_refl.
    unfold diff_shared.
    destruct (lookup k m1) as [v1|] eqn:E1; [|constructor].
    destruct (lookup k m2) as [v2|]; [|constructor].
    apply lookup_In in E1 as (k' & Hin & _).
    rewrite Forall_forall in IH. apply (IH _ Hin).
Qed.

(* ------------------------------------------------------------------ *)
(** ** Swapping the two documents *)

Lemma bytes_eqb_eq (b1 b2 : list Byte.byte) : bytes_eqb b1 b2 = true -> b1 = b2.
Proof.
  unfold bytes_eqb. rewrite String.eqb_eq. intros H.
  rewrite <- (list_byte_of_string_of_list_byte b1),
          <- (list_byte_of_string_of_list_byte b2).
  now rewrite H.
Qed.

(** Apart from [True == 1] and [False == 0], equal keys are the same. *)
Lemma atom_eqb_eq (a b : atom) :
  is_bool_atom a = false -> is_bool_atom b = false ->
  atom_eqb a b = true -> a = b.
Proof.
  destruct a, b; simpl; try discriminate; intros _ _ H.
  - apply Z.eqb_eq in H. congruence.
  - apply String.eqb_eq in H. congruence.
  - apply bytes_eqb_eq in H. congruence.
Qed.

Lemma set_of_incl (a : atom) (xs : list atom) : In a (set_of xs) -> In a xs.
Proof.
  revert a. induction xs as [|x xs IH]; simpl; intros a H; trivial.
  destruct H as [H|H]; [now left|].
  apply filter_In in H. right. apply IH. tauto.
Qed.

Lemma mem_In_plain (a : atom) (s : list atom) :
  is_bool_atom a = false ->
  (forall b, In b s -> is_bool_atom b = false) ->
  mem a s = true -> In a s.
Proof.
  intros Ha Hs H. apply mem_true in H as (b & Hb & E).
  now rewrite (atom_eqb_eq a b Ha (Hs b Hb) E).
Qed.










(** With a boolean key the two records name different paths: the shared key
    is printed as the right document spells it. *)
Lemma swap_with_bool_key :
  jsondiff [] false first_member
    (VDict [(ABool true, VDict [(AStr "x", VInt 1)])])
    (VDict [(AInt 1, VDict [])])
  = [Removed "/1/x"]
  /\ jsondiff [] false first_member
       (VDict [(AInt 1, VDict [])])
       (VDict [(ABool true, VDict [(AStr "x", VInt 1)])])
     = [Added "/True/x"].
Proof. split; reflexivity. Qed.

(* ------------------------------------------------------------------ *)
(** ** Lists compared as sets do not depend on the order of their elements *)

Lemma atoms_perm (l l' : list value) :
  Permutation l l' -> Permutation (atoms l) (atoms l').
Proof.
  induction 1 as [|d l l' _ IH|d d' l|l l' l'' _ IH1 _ IH2]; simpl.
  - constructor.
  - destruct (to_atom d); [now constructor | exact IH].
  - destruct (to_atom d), (to_atom d'); try apply Permutation_refl. apply perm_swap.
  - eapply perm_trans; eassumption.
Qed.

Lemma atoms_plain (l : list value) :
  existsb is_bool_value l = false ->
  forall a, In a (atoms l) -> is_bool_atom a = false.
Proof.
  induction l as [|d l IH]; simpl; [intros _ a []|].
  intros H a. apply orb_false_iff in H as [Hd Hl].
  destruct d; simpl; try (now apply IH); try discriminate;
    (intros [<-|Ha]; [reflexivity | now apply IH]).
Qed.

Lemma mem_perm (a : atom) (s s' : list atom) :
  Permutation s s' -> mem a s = mem a s'.
Proof.
  intros H. destruct (mem a s') eqn:E.
  - apply mem_true in E as (b & Hb & E). apply mem_true. exists b. split; trivial.
    eapply Permutation_in; [apply Permutation_sym, H | exact Hb].
  - destruct (mem a s) eqn:E'; trivial.
    apply mem_true in E' as (b & Hb & E'').
    assert (mem a s' = true) as E3; [|congruence].
    apply mem_true. exists b. split; trivial. eapply Permutation_in; eassumption.
Qed.

Lemma set_of_In_plain (xs : list atom) (a : atom) :
  (forall b, In b xs -> is_bool_atom b = false) ->
  In a (set_of xs) <-> In a xs.
Proof.
  intros Hp. split; [apply set_of_incl|]. intros H.
  apply mem_In_plain.
  - now apply Hp.
  - intros b Hb. apply Hp. now apply set_of_incl.
  - rewrite mem_set_of. now apply mem_In.
Qed.

Lemma set_diff_perm (x x' y y' : list atom) :
  (forall b, In b x -> is_bool_atom b = false) ->
  Permutation x x' -> Permutation y y' ->
  Permutation (set_diff (set_of x) (set_of y)) (set_diff (set_of x') (set_of y')).
Proof.
  intros Hp Hx Hy.
  assert (forall b, In b x' -> is_bool_atom b = false) as Hp'.
  { intros b Hb. apply Hp. eapply Permutation_in; [apply Permutation_sym, Hx | exact Hb]. }
  apply NoDup_Permutation.
  - apply NoDup_filter, NoDup_set_of.
  - apply NoDup_filter, NoDup_set_of.
  - intros a. rewrite !set_diff_In, !mem_set_of, (mem_perm a y y' Hy).
    rewrite (set_of_In_plain x a Hp), (set_of_In_plain x' a Hp').
    split; intros [H1 H2]; split; trivial.
    + eapply Permutation_in; eassumption.
    + eapply Permutation_in; [apply Permutation_sym, Hx | exact H1].
Qed.

Lemma forallb_perm {A : Type} (f : A -> bool) (l l' : list A) :
  Permutation l l' -> forallb f l = forallb f l'.
Proof.
  induction 1; simpl; try congruence.
  now rewrite !andb_assoc, (andb_comm (f y)).
Qed.

Lemma existsb_perm {A : Type} (f : A -> bool) (l l' : list A) :
  Permutation l l' -> existsb f l = existsb f l'.
Proof.
  induction 1; simpl; try congruence.
  now rewrite !orb_assoc, (orb_comm (f y)).
Qed.

(** X6 -- When two lists are compared as sets and hold no boolean, the
    order of their elements is immaterial: permuting either list leaves the
    emitted records the same, each as many times, up to their order. *)
Theorem set_mode_order_free :
  forall ignore set_sort choose choose' l1 l2 l1' l2' path,
    set_mode set_sort (VList l1) (VList l2) = true ->
    existsb is_bool_value l1 = false ->
    existsb is_bool_value l2 = false ->
    Permutation l1 l1' -> Permutation l2 l2' ->
    Permutation (diff ignore set_sort choose (VList l1) (VList l2) path)
                (diff ignore set_sort choose' (VList l1') (VList l2') path).
Proof.
  intros ignore set_sort choose choose' l1 l2 l1' l2' path Hm Hb1 Hb2 Hp1 Hp2.
  destruct (_ignore ignore path) eqn:Hi;
    [rewrite !diff_ignored by trivial; constructor|].
  assert (set_mode set_sort (VList l1') (VList l2') = true) as Hm'.
  { unfold set_mode in *.
    now rewrite <- (forallb_perm _ _ _ Hp1), <- (forallb_perm _ _ _ Hp2). }
  rewrite !diff_list by trivial. rewrite Hm, Hm'.
  apply Permutation_app.
  - eapply perm_trans; [apply Permutation_flat_map, iterate_perm|].
    eapply perm_trans; [|apply Permutation_flat_map, Permutation_sym, iterate_perm].
    apply Permutation_flat_map, set_diff_perm; try now apply atoms_perm.
    now apply atoms_plain.
  - eapply perm_trans; [apply Permutation_flat_map, iterate_perm|].
    eapply perm_trans; [|apply Permutation_flat_map, Permutation_sym, iterate_perm].
    apply Permutation_flat_map, set_diff_perm; try now apply atoms_perm.
    now apply atoms_plain.
Qed.

(** [set_mode_order_free] on a concrete input. *)
Lemma set_mode_order_free_witness :
  Permutation
    (diff [] true first_member
       (VList [VInt 1; VInt 2; VStr "a"]) (VList [VInt 2; VInt 3]) "/")
    (diff [] true first_member
       (VList [VStr "a"; VInt 2; VInt 1]) (VList [VInt 3; VInt 2]) "/").
Proof.
  apply (set_mode_order_free [] true first_member first_member
           [VInt 1; VInt 2; VStr "a"] [VInt 2; VInt 3]
           [VStr "a"; VInt 2; VInt 1] [VInt 3; VInt 2] "/");
    try reflexivity.
  - apply Permutation_rev with (l := [VInt 1; VInt 2; VStr "a"]).
  - apply perm_swap.
Defined.

(** With booleans the member printed is the first of its equals in the
    list, so the order of the list shows. *)
Lemma set_mode_order_with_bool :
  diff [] true first_member (VList [VBool true; VInt 1]) (VList []) "/"
  = [Removed "/True"]
  /\ diff [] true first_member (VList [VInt 1; VBool true]) (VList []) "/"
     = [Removed "/1"].
Proof. split; reflexivity. Qed.

(* ------------------------------------------------------------------ *)
(** ** [fixup_keys]: which exception, and what comes out *)

Lemma index_error (keys : list string) (k : atom) (e : error) :
  index keys k = Raise e -> e = TypeError \/ e = IndexError.
Proof.
  unfold index. destruct (as_index k); [|intros [= <-]; auto].
  destruct (_ || _)%bool; [intros [= <-]; auto|].
  destruct (nth_error keys _); [discriminate | intros [= <-]; auto].
Qed.

Lemma helper_error (keys : list string) (d : value) (e : error) :
  helper keys d = Raise e -> e = TypeError \/ e = IndexError.
Proof.
  induction d as [| b | z | f | s | b | l IH | m IH] using value_ind;
    try discriminate.
  - rewrite helper_list.
    assert (helper_elems keys l = Raise e -> e = TypeError \/ e = IndexError) as H.
    { induction IH as [|d l Hd _ IHl]; cbn [helper_elems]; [discriminate|].
      destruct (helper keys d); cbn [bind]; [|intros [= <-]; now apply Hd].
      destruct (helper_elems keys l); cbn [bind]; [discriminate|].
      intros [= <-]. now apply IHl. }
    destruct (helper_elems keys l); cbn [bind]; [discriminate|].
    intros [= <-]. now apply H.
  - rewrite helper_dict.
    assert (helper_items keys m = Raise e -> e = TypeError \/ e = IndexError) as H.
    { induction IH as [|[k d] m Hd _ IHm]; cbn [helper_items]; [discriminate|].
      destruct (index keys k) eqn:Ek; cbn [bind];
        [|intros [= <-]; now apply index_error in Ek].
      simpl in Hd.
      destruct (helper keys d); cbn [bind]; [|intros [= <-]; now apply Hd].
      destruct (helper_items keys m); cbn [bind]; [discriminate|].
      intros [= <-]. now apply IHm. }
    destruct (helper_items keys m); cbn [bind]; [discriminate|].
    intros [= <-]. now apply H.
Qed.

Lemma decode_keys_error (decode : list Byte.byte -> option string)
  (ks : list value) (e : error) :
  decode_keys decode ks = Raise e -> e = AttributeError \/ e = UnicodeDecodeError.
Proof.
  induction ks as [|k ks IH]; cbn [decode_keys]; [discriminate|].
  destruct (decode_key decode k) eqn:Ek; cbn [bind].
  - destruct (decode_keys decode ks); cbn [bind]; [discriminate|].
    intros [= <-]. now apply IH.
  - intros [= <-]. unfold decode_key in Ek.
    destruct k; try (injection Ek as <-; auto).
    destruct (decode b); [discriminate | injection Ek as <-; auto].
Qed.

(** X7 -- The exception tells what is wrong, in the order the code looks:
    [AssertionError] exactly when the document is no two-element list with
    a list in second place; [AttributeError] or [UnicodeDecodeError]
    exactly when it is one but some element of the key table is no [bytes]
    that decodes, whatever the payload holds; [TypeError] or [IndexError]
    exactly when the table decodes and some key in the payload is no valid
    index. *)
Theorem fixup_keys_exceptions :
  forall decode data,
    (fixup_keys decode data = Raise AssertionError <->
       forall obj ks, data <> VList [obj; VList ks])
    /\ (fixup_keys decode data = Raise AttributeError
        \/ fixup_keys decode data = Raise UnicodeDecodeError <->
        exists obj ks, data = VList [obj; VList ks]
                       /\ table_ok decode ks = false)
    /\ (fixup_keys decode data = Raise TypeError
        \/ fixup_keys decode data = Raise IndexError <->
        exists obj ks, data = VList [obj; VList ks]
                       /\ table_ok decode ks = true
                       /\ keys_valid (List.length ks) obj = false).
Proof.
  intros decode data.
  assert ((forall obj ks, data <> VList [obj; VList ks])
          \/ exists obj ks, data = VList [obj; VList ks]) as [Hbad|(obj & ks & ->)].
  { destruct data as [| | | | | | [|obj [|[| | | | | | ks |] [|x rest]]] |];
      try (left; intros ? ? [=]; fail). right. eauto. }
  - assert (fixup_keys decode data = Raise AssertionError) as E.
    { destruct data as [| | | | | | [|obj [|[| | | | | | ks |] [|x rest]]] |];
        trivial. now destruct (Hbad obj ks). }
    rewrite E. split; [tauto|]. split; split.
    + intros [H|H]; discriminate.
    + intros (obj & ks & -> & _). now destruct (Hbad obj ks).
    + intros [H|H]; discriminate.
    + intros (obj & ks & -> & _). now destruct (Hbad obj ks).
  - cbn [fixup_keys].
    pose proof (decode_keys_total decode ks) as Ht.
    destruct (decode_keys decode ks) as [names|e] eqn:Ed; cbn [bind].
    + assert (table_ok decode ks = true) as Hok by (apply Ht; eauto).
      pose proof (helper_total names obj) as Hh.
      rewrite (decode_keys_length _ _ _ Ed) in Hh.
      split; [|split].
      * split; [|intros H; now destruct (H obj ks)].
        intros H. apply helper_error in H as [H|H]; discriminate.
      * split.
        -- intros [H|H]; apply helper_error in H as [H|H]; discriminate.
        -- intros (o & k & [= <- <-] & H). congruence.
      * split.
        -- intros H. exists obj, ks. repeat split; trivial.
           destruct (keys_valid (List.length ks) obj); trivial.
           destruct (proj2 Hh eq_refl) as (v & Hv). destruct H; congruence.
        -- intros (o & k & [= <- <-] & _ & H).
           destruct (helper names obj) as [v|e] eqn:Eh.
           ++ assert (keys_valid (List.length ks) obj = true) by (apply Hh; eauto).
              congruence.
           ++ apply helper_error in Eh as [->| ->]; auto.
    + assert (table_ok decode ks = false) as Hno.
      { destruct (table_ok decode ks); trivial.
        destruct (proj2 Ht eq_refl) as (n & Hn). discriminate. }
      pose proof (decode_keys_error _ _ _ Ed) as He.
      split; [|split].
      * split; [|intros H; now destruct (H obj ks)].
        intros [= ->]. destruct He; discriminate.
      * split; [eauto|]. intros _. destruct He as [->| ->]; auto.
      * split.
        -- intros [[= ->]|[= ->]]; destruct He; discriminate.
        -- intros (o & k & [= <- <-] & H & _). congruence.
Qed.

Lemma dict_set_forall {A : Type} (Q : atom * A -> Prop) (m : list (atom * A))
  (k : atom) (v : A) :
  Forall Q m -> (forall k', In k' (map fst m) \/ k' = k -> Q (k', v)) ->
  Forall Q (dict_set m k v).
Proof.
  induction m as [|[k0 v0] m IH]; simpl; intros Hm Hq.
  - constructor; [apply Hq; auto | constructor].
  - inversion Hm as [|? ? H0 Hm']; subst.
    destruct (atom_eqb k k0).
    + constructor; trivial. apply Hq. auto.
    + constructor; trivial. apply IH; trivial. intros k' [H|H]; apply Hq; auto.
Qed.

Lemma dict_of_forall {A : Type} (Qk : atom -> Prop) (Qv : A -> Prop)
  (items : list (atom * A)) :
  Forall (fun kv => Qk (fst kv) /\ Qv (snd kv)) items ->
  Forall (fun kv => Qk (fst kv) /\ Qv (snd kv)) (dict_of items).
Proof.
  unfold dict_of.
  assert (forall acc : list (atom * A),
             Forall (fun kv => Qk (fst kv) /\ Qv (snd kv)) acc ->
             Forall (fun kv => Qk (fst kv) /\ Qv (snd kv)) items ->
             Forall (fun kv => Qk (fst kv) /\ Qv (snd kv))
                    (fold_left (fun acc kv => dict_set acc (fst kv) (snd kv)) items acc))
    as H.
  { induction items as [|[k v] items IH]; intros acc Ha Hi; cbn [fold_left]; trivial.
    inversion Hi as [|? ? [Hk Hv] Hi']; subst. apply IH; trivial.
    apply dict_set_forall; trivial. cbn [fst snd] in *.
    intros k' [H| ->]; split; trivial.
    rewrite Forall_forall in Ha. apply in_map_iff in H as ([k0 v0] & <- & Hin).
    now apply (Ha _ Hin). }
  intros Hi. apply H; [constructor | exact Hi].
Qed.

Lemma helper_str_keys (keys : list string) (d : value) :
  forall v, helper keys d = Ok v -> str_keys v = true.
Proof.
  induction d as [| b | z | f | s | b | l IH | m IH] using value_ind;
    try (intros v [= <-]; reflexivity).
  - intros v. rewrite helper_list.
    destruct (helper_elems keys l) as [r|] eqn:E; cbn [bind]; [|discriminate].
    intros [= <-]. apply helper_elems_ok in E. cbn [str_keys].
    apply forallb_forall. revert r E.
    induction IH as [|d l Hd _ IHl]; intros r E; inversion E; subst.
    + intros x [].
    + intros x [<-|Hx]; [now apply Hd | now apply (IHl l')].
  - intros v. rewrite helper_dict.
    destruct (helper_items keys m) as [r|] eqn:E; cbn [bind]; [|discriminate].
    intros [= <-]. apply helper_items_ok in E. cbn [str_keys].
    assert (Forall (fun kv => is_str_atom (fst kv) = true /\ str_keys (snd kv) = true) r)
      as Hr.
    { revert r E. induction IH as [|[k d] m Hd _ IHm]; intros r E; inversion E; subst.
      - constructor.
      - constructor; [|now apply IHm].
        destruct H1 as (name & _ & Hk & Hv). rewrite Hk. split; trivial.
        now apply Hd. }
    apply (dict_of_forall (fun k => is_str_atom k = true)
             (fun v => str_keys v = true)) in Hr.
    apply forallb_forall. intros kv Hin. rewrite Forall_forall in Hr.
    destruct (Hr _ Hin) as [-> ->]. reflexivity.
Qed.

Lemma helper_no_items (keys : list string) (d : value) :
  no_items d = true -> helper keys d = Ok d.
Proof.
  induction d as [| b | z | f | s | b | l IH | m IH] using value_ind; trivial.
  - cbn [no_items]. intros H. rewrite helper_list.
    assert (helper_elems keys l = Ok l) as ->; trivial.
    induction IH as [|d l Hd _ IHl]; trivial.
    simpl in H. apply andb_true_iff in H as [H1 H2].
    cbn [helper_elems]. now rewrite (Hd H1), (IHl H2).
  - cbn [no_items]. destruct m; [reflexivity | discriminate].
Qed.

(** X8 -- A payload in which every dictionary is empty (scalars and lists
    of them among others) comes back as it is, provided the key table
    decodes. *)
Theorem fixup_keys_keeps_keyless :
  forall decode obj ks,
    table_ok decode ks = true -> no_items obj = true ->
    fixup_keys decode (VList [obj; VList ks]) = Ok obj.
Proof.
  intros decode obj ks Ht Hn. cbn [fixup_keys].
  apply decode_keys_total in Ht as (names & ->). cbn [bind].
  now apply helper_no_items.
Qed.

(** [fixup_keys_keeps_keyless] on a concrete input. *)
Lemma fixup_keys_keeps_keyless_witness :
  fixup_keys decode_ascii
    (VList [VList [VInt 1; VStr "a"; VDict []; VList [VNone]];
            VList [VBytes (bytes_of "name")]])
  = Ok (VList [VInt 1; VStr "a"; VDict []; VList [VNone]]).
Proof.
  apply (fixup_keys_keeps_keyless decode_ascii
           (VList [VInt 1; VStr "a"; VDict []; VList [VNone]])
           [VBytes (bytes_of "name")]); reflexivity.
Defined.

(* ------------------------------------------------------------------ *)
(** ** [_dump_counts] *)

Lemma snd_and_then (a : dumped) (b : unit -> dumped) :
  snd (and_then a b) = match snd a with
                       | Some e => Some e
                       | None => snd (b tt)
                       end.
Proof. destruct a as [out [e|]]; simpl; trivial. now destruct (b tt). Qed.

Lemma fst_and_then (a : dumped) (b : unit -> dumped) :
  fst (and_then a b) = match snd a with
                       | Some _ => fst a
                       | None => (fst a ++ fst (b tt))%list
                       end.
Proof. destruct a as [out [e|]]; simpl; trivial. now destruct (b tt). Qed.

Lemma dump_dict (m : list (atom * value)) (path : string) :
  _dump_counts (VDict m) path =
    and_then ([CountLine (List.length m) path], None) (fun _ => dump_items path m).
Proof.
  cbn [_dump_counts]. f_equal.
  induction m as [|[k v] m IH]; cbn [dump_items]; trivial.
  destruct (join_key path k); trivial. now rewrite IH.
Qed.

Lemma dump_list (l : list value) (path : string) :
  _dump_counts (VList l) path =
    and_then ([CountLine (List.length l) path], None) (fun _ => dump_elems path l 0).
Proof.
  cbn [_dump_counts]. f_equal. generalize 0.
  induction l as [|v l IH]; intros n; cbn [dump_elems]; trivial.
  now rewrite IH.
Qed.

Lemma dump_counts_error (d : value) :
  forall path,
    snd (_dump_counts d path) = if str_keys d then None else Some TypeError.
Proof.
  induction d as [| b | z | f | s | b | l IH | m IH] using value_ind;
    intros path; trivial.
  - rewrite dump_list, snd_and_then. cbn [snd str_keys]. generalize 0.
    induction IH as [|d l Hd _ IHl]; intros n; cbn [dump_elems forallb]; trivial.
    rewrite snd_and_then, Hd, IHl. now destruct (str_keys d).
  - rewrite dump_dict, snd_and_then. cbn [snd str_keys].
    induction IH as [|[k d] m Hd _ IHm]; cbn [dump_items forallb fst snd]; trivial.
    destruct k; cbn [join_key is_str_atom andb snd]; trivial.
    simpl in Hd. rewrite snd_and_then, Hd, IHm. now destruct (str_keys d).
Qed.


Lemma dump_counts_absolute (d : value) :
  forall path n p,
    absolute path = true ->
    In (CountLine n p) (fst (_dump_counts d path)) -> absolute p = true.
Proof.
  induction d as [| b | z | f | s | b | l IH | m IH] using value_ind;
    intros path n p Ha; try (intros []).
  - rewrite dump_list, fst_and_then. cbn [snd fst].
    intros [[= _ <-]|H]; trivial. cbn [app] in H. revert H. generalize 0.
    induction IH as [|d l Hd _ IHl]; intros i; cbn [dump_elems]; [intros []|].
    rewrite fst_and_then.
    destruct (snd (_dump_counts d (path_join path (str_nat i)))).
    + apply Hd. now apply path_join_absolute.
    + rewrite in_app_iff. intros [H|H]; [|exact (IHl (S i) H)].
      revert H. apply Hd. now apply path_join_absolute.
  - rewrite dump_dict, fst_and_then. cbn [snd fst].
    intros [[= _ <-]|H]; trivial. cbn [app] in H. revert H.
    induction IH as [|[k d] m Hd _ IHm]; cbn [dump_items]; [intros []|].
    destruct k; cbn [join_key fst]; try (intros []). simpl in Hd.
    rewrite fst_and_then.
    destruct (snd (_dump_counts d (path_join path s))).
    + apply Hd. now apply path_join_absolute.
    + rewrite in_app_iff. intros [H|H]; [|exact (IHm H)].
      revert H. apply Hd. now apply path_join_absolute.
Qed.




(** X11 -- What [fixup_keys] returns has text keys only, so that
    [_dump_counts] on it never raises. *)
Theorem fixup_keys_then_dump_counts :
  forall decode data v path,
    fixup_keys decode data = Ok v ->
    str_keys v = true /\ snd (_dump_counts v path) = None.
Proof.
  intros decode data v path H.
  assert (str_keys v = true) as Hs.
  { unfold fixup_keys in H.
    destruct data as [| | | | | | [|obj [|[| | | | | | ks |] [|x rest]]] |];
      try discriminate.
    destruct (decode_keys decode ks) as [names|]; [|discriminate].
    now apply (helper_str_keys names obj). }
  split; trivial. now rewrite dump_counts_error, Hs.
Qed.

(** [fixup_keys_then_dump_counts] on a concrete input. *)
Lemma fixup_keys_then_dump_counts_witness :
  str_keys (VDict [(AStr "name", VStr "v")]) = true
  /\ snd (_dump_counts (VDict [(AStr "name", VStr "v")]) "/") = None.
Proof.
  apply (fixup_keys_then_dump_counts decode_ascii
           (VList [VDict [(AInt 0, VStr "v")]; VList [VBytes (bytes_of "name")]])
           (VDict [(AStr "name", VStr "v")]) "/").
  reflexivity.
Defined.

(** X12 -- Every line [_dump_counts] writes, started at the root as
    [main] starts it, names an absolute path. *)
Theorem dump_counts_paths_absolute :
  forall d n p,
    In (CountLine n p) (fst (_dump_counts d "/")) -> absolute p = true.
Proof. intros d n p. now apply dump_counts_absolute. Qed.

(** [dump_counts_paths_absolute] on a concrete input. *)
Lemma dump_counts_paths_absolute_witness : absolute "/a" = true.
Proof.
  apply (dump_counts_paths_absolute
           (VDict [(AStr "a", VList [VInt 1])]) 1 "/a").
  vm_compute. right. left. reflexivity.
Defined.

(* ------------------------------------------------------------------ *)
(** ** [UniqueDict] *)

Lemma str_int_inj (z z' : Z) : str_int z = str_int z' -> z = z'.
Proof.
  unfold str_int. intros H.
  assert (forall x, NilZero.int_of_string (NilZero.string_of_int (Z.to_int x))
                    = Some (Z.to_int x)) as Hisi.
  { intros x. apply NilZero.isi; destruct x; simpl; try discriminate;
      intros [= E]; now apply Unsigned.to_uint_nonnil in E. }
  apply DecimalZ.to_int_inj.
  assert (Some (Z.to_int z) = Some (Z.to_int z')) as E
      by (rewrite <- !Hisi; now rewrite H).
  now injection E.
Qed.

Lemma str_nat_inj (n n' : nat) : str_nat n = str_nat n' -> n = n'.
Proof. unfold str_nat. intros H. apply str_int_inj in H. lia. Qed.

Lemma string_app_inv_head (a b c : string) : (a ++ b)%string = (a ++ c)%string -> b = c.
Proof. induction a; simpl; intros H; [exact H|]. injection H as H. auto. Qed.

Lemma suffixed_class_inj (k : atom) (n n' : nat) :
  atom_class (suffixed k n) = atom_class (suffixed k n') -> n = n'.
Proof.
  unfold suffixed. simpl. intros [= H].
  apply string_app_inv_head in H. injection H as H. now apply str_nat_inj.
Qed.

Lemma dict_in_class {A : Type} (k : atom) (self : list (atom * A)) :
  dict_in k self = true <-> In (atom_class k) (map atom_class (map fst self)).
Proof.
  unfold dict_in. rewrite mem_true, in_map_iff. split.
  - intros (b & Hb & E). exists b. split; trivial. symmetry. now apply atom_eqb_class.
  - intros (b & E & Hb). exists b. split; trivial. now apply atom_eqb_class.
Qed.

Lemma dict_in_app {A : Type} (k : atom) (m1 m2 : list (atom * A)) :
  dict_in k (m1 ++ m2) = (dict_in k m1 || dict_in k m2)%bool.
Proof. unfold dict_in, mem. now rewrite map_app, existsb_app. Qed.

Lemma valid_key_loop_none {A : Type} (fuel : nat) (self : list (atom * A))
  (k vk : atom) (c : nat) :
  valid_key_loop fuel self k vk c = None ->
  forall j, j + 1 < fuel -> dict_in (suffixed k (c + j)) self = true.
Proof.
  revert vk c. induction fuel as [|fuel IH]; intros vk c H j Hj; [lia|].
  cbn [valid_key_loop] in H.
  destruct (dict_in vk self); [|discriminate].
  destruct j as [|j].
  - rewrite Nat.add_0_r. destruct fuel as [|fuel]; [lia|].
    cbn [valid_key_loop] in H.
    destruct (dict_in (suffixed k c) self); [reflexivity | discriminate].
  - rewrite <- Nat.add_succ_comm. apply (IH _ _ H). lia.
Qed.

(** The loop of lines 23-25 ends: among the names [k.0], ..., [k.n] one is
    free in a dictionary of [n] items. *)
Lemma valid_key_loop_ends {A : Type} (self : list (atom * A)) (k : atom) :
  exists key, valid_key_loop (List.length self + 2) self k k 0 = Some key.
Proof.
  destruct (valid_key_loop (List.length self + 2) self k k 0) as [key|] eqn:E;
    [eauto|]. exfalso.
  pose proof (valid_key_loop_none _ _ _ _ _ E) as H. cbn [Nat.add] in H.
  set (n := List.length self) in *.
  assert (NoDup (map atom_class (map (suffixed k) (seq 0 (S n))))) as Hnd.
  { rewrite map_map. apply Finite.Injective_map_NoDup; [|apply seq_NoDup].
    intros a b. apply suffixed_class_inj. }
  assert (incl (map atom_class (map (suffixed k) (seq 0 (S n))))
               (map atom_class (map fst self))) as Hincl.
  { intros x Hx. apply in_map_iff in Hx as (a & <- & Ha).
    apply in_map_iff in Ha as (j & <- & Hj). apply in_seq in Hj.
    apply dict_in_class. apply H. lia. }
  apply NoDup_incl_length in Hincl; trivial.
  rewrite !length_map, length_seq in Hincl. unfold n in Hincl. lia.
Qed.

Lemma valid_key_loop_some {A : Type} (fuel : nat) (self : list (atom * A))
  (k vk key : atom) (c : nat) :
  valid_key_loop fuel self k vk c = Some key ->
  dict_in key self = false
  /\ (key = vk
      \/ (dict_in vk self = true
          /\ exists n, c <= n /\ key = suffixed k n
                       /\ forall j, c <= j < n -> dict_in (suffixed k j) self = true)).
Proof.
  revert vk c. induction fuel as [|fuel IH]; intros vk c; [discriminate|].
  cbn [valid_key_loop]. destruct (dict_in vk self) eqn:E.
  - intros H. apply IH in H as (Hfree & [->|(Hs & n & Hn & -> & Hall)]).
    + split; trivial. right. split; trivial. exists c. repeat split; trivial. lia.
    + split; trivial. right. split; trivial. exists n. repeat split; [lia|].
      intros j Hj. destruct (Nat.eq_dec j c) as [->|Hne]; trivial. apply Hall. lia.
  - intros [= <-]. auto.
Qed.

Lemma unique_from_assigned {A : Type} (pairs : list (atom * A)) :
  forall self,
    exists new, unique_from self pairs = Some (self ++ new)
                /\ assigned self pairs new.
Proof.
  induction pairs as [|[k v] pairs IH]; intros self; cbn [unique_from].
  - exists []. now rewrite app_nil_r.
  - destruct (valid_key_loop_ends self k) as (key & E). rewrite E.
    apply valid_key_loop_some in E as (Hfree & Hkey).
    rewrite dict_set_fresh by exact Hfree.
    destruct (IH (self ++ [(key, v)])) as (new & Hnew & Has).
    exists ((key, v) :: new). rewrite Hnew, <- app_assoc. split; trivial.
    cbn [assigned]. repeat split; trivial.
    destruct Hkey as [->|(Hk & n & _ & -> & Hall)]; [now left|].
    right. split; trivial. exists n. split; trivial. intros j Hj. apply Hall. lia.
Qed.

Lemma assigned_shape {A : Type} (pairs : list (atom * A)) :
  forall self new,
    assigned self pairs new ->
    Forall2 (fun kv kv' => snd kv' = snd kv
                           /\ (fst kv' = fst kv
                               \/ exists n, fst kv' = suffixed (fst kv) n))
            pairs new.
Proof.
  induction pairs as [|[k v] pairs IH]; intros self [|[key v'] new]; cbn [assigned];
    try tauto.
  - constructor.
  - intros (-> & _ & Hk & Has). constructor; [|now apply (IH _ _ Has)].
    cbn [fst snd]. split; trivial.
    destruct Hk as [->|(_ & n & -> & _)]; eauto.
Qed.


Lemma assigned_keeps_keys {A : Type} (pairs : list (atom * A)) :
  forall self new k,
    assigned self pairs new ->
    dict_in k self = true \/ In k (map fst pairs) ->
    dict_in k (self ++ new) = true.
Proof.
  induction pairs as [|[k0 v] pairs IH]; intros self [|[key v'] new] k; cbn [assigned];
    try tauto.
  - rewrite app_nil_r. intros _ [H|[]]. exact H.
  - intros (-> & Hfree & Hk & Has) Hin.
    replace (self ++ (key, v) :: new)%list with ((self ++ [(key, v)]) ++ new)%list
      by now rewrite <- app_assoc.
    apply (IH _ _ _ Has). rewrite dict_in_app.
    destruct Hin as [H|[E|H]]; [left; now rewrite H | | now right].
    left. simpl in E. subst k. destruct Hk as [E|(Hk & _)].
    + subst key. unfold dict_in at 2. simpl. rewrite atom_eqb_refl. apply orb_true_r.
    + now rewrite Hk.
Qed.

(** X13 -- [UniqueDict] ends on every sequence of pairs, and its result
    has one item for each pair, in the order of the pairs and with the
    pair's value; the key of the item is the pair's key, or that key with a
    suffix [.n]. *)
Theorem UniqueDict_total :
  forall (A : Type) (generator : list (atom * A)),
    exists d,
      UniqueDict generator = Some d
      /\ Forall2 (fun kv kv' => snd kv' = snd kv
                                /\ (fst kv' = fst kv
                                    \/ exists n, fst kv' = suffixed (fst kv) n))
                 generator d.
Proof.
  intros A generator. unfold UniqueDict.
  destruct (unique_from_assigned generator []) as (d & E & Has).
  exists d. split; trivial. now apply (assigned_shape _ []).
Qed.



(** X15 -- Each pair is named by the rule of lines 21-26, against the
    items made for the pairs before it: it keeps its key when no such item
    has an equal key, and otherwise takes [k.n] for the least [n] such that
    no such item has the key [k.n]. *)
Theorem UniqueDict_least_suffix :
  forall (A : Type) (generator d : list (atom * A)),
    UniqueDict generator = Some d -> assigned [] generator d.
Proof.
  intros A generator d. unfold UniqueDict.
  destruct (unique_from_assigned generator []) as (new & E & Has).
  rewrite E. now intros [= <-].
Qed.

(** [UniqueDict_least_suffix] on a concrete input. *)
Lemma UniqueDict_least_suffix_witness :
  assigned [] [(AStr "a", 1); (AStr "a.0", 2); (AStr "a", 3); (AStr "a", 4)]
              [(AStr "a", 1); (AStr "a.0", 2); (AStr "a.1", 3); (AStr "a.2", 4)].
Proof.
  apply (UniqueDict_least_suffix nat
           [(AStr "a", 1); (AStr "a.0", 2); (AStr "a", 3); (AStr "a", 4)]).
  reflexivity.
Defined.

(** X16 -- Every key that is given stays a key of the result (its value
    may be that of an earlier pair that was given its name). *)
Theorem UniqueDict_keeps_keys :
  forall (A : Type) (generator d : list (atom * A)) (k : atom),
    UniqueDict generator = Some d ->
    In k (map fst generator) -> dict_in k d = true.
Proof.
  intros A generator d k. unfold UniqueDict.
  destruct (unique_from_assigned generator []) as (new & E & Has).
  rewrite E. intros [= <-] Hin.
  apply (assigned_keeps_keys generator [] new k Has). now right.
Qed.

(** [UniqueDict_keeps_keys] on a concrete input. *)
Lemma UniqueDict_keeps_keys_witness :
  dict_in (AStr "a.0") [(AStr "a", 1); (AStr "a.0", 2); (AStr "a.0.0", 3)] = true.
Proof.
  apply (UniqueDict_keeps_keys nat
           [(AStr "a", 1); (AStr "a", 2); (AStr "a.0", 3)]
           [(AStr "a", 1); (AStr "a.0", 2); (AStr "a.0.0", 3)] (AStr "a.0")).
  - reflexivity.
  - simpl. auto.
Defined.

Lemma unique_from_distinct {A : Type} (pairs : list (atom * A)) :
  forall self,
    NoDup (map atom_class (map fst (self ++ pairs))) ->
    unique_from self pairs = Some (self ++ pairs).
Proof.
  induction pairs as [|[k v] pairs IH]; intros self Hnd; cbn [unique_from].
  - now rewrite app_nil_r.
  - assert (dict_in k self = false) as Hfree.
    { destruct (dict_in k self) eqn:E; trivial. exfalso.
      apply dict_in_class in E. rewrite !map_app in Hnd.
      apply NoDup_remove_2 in Hnd. apply Hnd, in_or_app. now left. }
    rewrite Nat.add_comm. cbn [Nat.add valid_key_loop]. rewrite Hfree.
    rewrite dict_set_fresh by exact Hfree.
    rewrite IH; rewrite <- app_assoc; trivial.
Qed.

(** X17 -- Pairs whose keys are pairwise different, as Python compares
    them, come out as they went in. *)
Theorem UniqueDict_distinct_unchanged :
  forall (A : Type) (generator : list (atom * A)),
    NoDup (map atom_class (map fst generator)) ->
    UniqueDict generator = Some generator.
Proof. intros A generator H. now apply (unique_from_distinct generator []). Qed.

(** [UniqueDict_distinct_unchanged] on a concrete input. *)
Lemma UniqueDict_distinct_unchanged_witness :
  UniqueDict [(AStr "a", 1); (AInt 1, 2); (AStr "1", 3)]
  = Some [(AStr "a", 1); (AInt 1, 2); (AStr "1", 3)].
Proof.
  apply (UniqueDict_distinct_unchanged nat [(AStr "a", 1); (AInt 1, 2); (AStr "1", 3)]).
  repeat constructor; simpl; intuition discriminate.
Defined.

(* ------------------------------------------------------------------ *)
(** ** Rules without wildcards, and rules that end in a star *)

Lemma fnmatch_empty (name : string) : fnmatch name "" = true <-> name = "".
Proof.
  unfold fnmatch. cbn [translate translate_fuel String.length glob_match].
  destruct name; simpl; split; congruence.
Qed.

Lemma fnmatch_star_only (name : string) : fnmatch name "*" = true.
Proof.
  unfold fnmatch. rewrite translate_cons. cbn [Ascii.eqb Bool.eqb].
  apply glob_star. exists (chars name), []. now rewrite app_nil_r.
Qed.

Lemma literal_cons (c : ascii) (p q : string) :
  literal_pattern (String c p) = true ->
  translate (String c q) = Lit c :: translate q /\ literal_pattern p = true.
Proof.
  unfold literal_pattern. cbn [chars list_ascii_of_string forallb]. fold (chars p).
  intros H. apply andb_true_iff in H as [Hc Hp]. split; trivial.
  apply negb_true_iff, orb_false_iff in Hc as [Hc H3].
  apply orb_false_iff in Hc as [H1 H2].
  rewrite translate_cons. now rewrite H1, H2, H3.
Qed.

(** A pattern that starts with plain characters matches the names that
    start with these characters and go on with a match of the rest. *)
Lemma fnmatch_literal_app (p q : string) :
  literal_pattern p = true ->
  forall name,
    fnmatch name (p ++ q) = true <->
    exists rest, name = (p ++ rest)%string /\ fnmatch rest q = true.
Proof.
  induction p as [|c p IH]; intros Hl name.
  - simpl. split; [eauto | now intros (rest & -> & H)].
  - destruct (literal_cons c p (p ++ q) Hl) as [Ht Hl'].
    change (String c p ++ q)%string with (String c (p ++ q)).
    rewrite (fnmatch_head (Lit c) name (p ++ q)); [| discriminate | exact Ht].
    cbn [token_accepts]. split.
    + intros (c' & b & -> & E & H). apply Ascii.eqb_eq in E as <-.
      apply (IH Hl') in H as (rest & -> & H). exists rest. auto.
    + intros (rest & -> & H). exists c, (p ++ rest)%string.
      rewrite Ascii.eqb_refl. repeat split. apply (IH Hl'). eauto.
Qed.

Lemma string_app_nil_r (s : string) : (s ++ "")%string = s.
Proof. induction s; simpl; congruence. Qed.

(** X18 -- A rule without [*], [?] and opening bracket ignores the path
    that is the rule, and no other. *)
Theorem ignore_literal_rule :
  forall p path,
    literal_pattern p = true ->
    (_ignore [p] path = true <-> path = p).
Proof.
  intros p path Hl. unfold _ignore. cbn [existsb]. rewrite orb_false_r.
  rewrite <- (string_app_nil_r p) at 1.
  rewrite (fnmatch_literal_app p "" Hl). split.
  - intros (rest & -> & H). apply fnmatch_empty in H as ->. apply string_app_nil_r.
  - intros ->. exists "". split; [now rewrite string_app_nil_r | now apply fnmatch_empty].
Qed.

(** [ignore_literal_rule] on a concrete input. *)
Lemma ignore_literal_rule_witness :
  _ignore ["/a/b"] "/a/b/c" = true <-> "/a/b/c" = "/a/b".
Proof. apply (ignore_literal_rule "/a/b" "/a/b/c"). reflexivity. Defined.

(** X19 -- A rule made of plain characters and a final [*] ignores the
    paths that start with these characters, and no other: ["/a/*"]
    ignores everything below ["/a/"]. *)
Theorem ignore_prefix_rule :
  forall p path,
    literal_pattern p = true ->
    (_ignore [(p ++ "*")%string] path = true <->
     exists rest, path = (p ++ rest)%string).
Proof.
  intros p path Hl. unfold _ignore. cbn [existsb]. rewrite orb_false_r.
  rewrite (fnmatch_literal_app p "*" Hl). split.
  - intros (rest & -> & _). eauto.
  - intros (rest & ->). exists rest. split; trivial. apply fnmatch_star_only.
Qed.

(** [ignore_prefix_rule] on a concrete input. *)
Lemma ignore_prefix_rule_witness :
  _ignore ["/a/*"] "/a/b/0" = true <-> exists rest, "/a/b/0" = ("/a/" ++ rest)%string.
Proof. apply (ignore_prefix_rule "/a/" "/a/b/0"). reflexivity. Defined.

Lemma prefix_app (p s : string) :
  String.prefix p s = true -> exists rest, s = (p ++ rest)%string.
Proof.
  revert s. induction p as [|c p IH]; intros s; [simpl; eauto|].
  destruct s as [|c' s]; simpl; [discriminate|].
  destruct (Ascii.ascii_dec c c') as [<-|]; [|discriminate].
  intros H. destruct (IH s H) as (rest & ->). eauto.
Qed.

(** X20 -- With a rule made of plain characters and a final [*] among the
    ignore rules, [jsondiff] emits no record whose path starts with these
    characters: ["/a/*"] silences everything below ["/a/"]. *)
Theorem ignored_prefix_silent :
  forall ignore set_sort choose d1 d2 p r,
    literal_pattern p = true ->
    In (p ++ "*")%string ignore ->
    In r (jsondiff ignore set_sort choose d1 d2) ->
    String.prefix p (record_path r) = false.
Proof.
  intros ignore set_sort choose d1 d2 p r Hl Hin Hr.
  apply diff_path_not_ignored in Hr.
  destruct (String.prefix p (record_path r)) eqn:E; trivial.
  apply prefix_app in E as (rest & E).
  assert (_ignore ignore (record_path r) = true); [|congruence].
  apply ignore_true. exists (p ++ "*")%string. split; trivial.
  apply (fnmatch_literal_app p "*" Hl). exists rest. split; trivial.
  apply fnmatch_star_only.
Qed.

(** [ignored_prefix_silent] on a concrete input. *)
Lemma ignored_prefix_silent_witness :
  String.prefix "/a/" (record_path (ValueChanged "/b" (VInt 1) (VInt 2))) = false.
Proof.
  apply (ignored_prefix_silent ["/a/*"] false first_member
           (VDict [(AStr "a", VList [VInt 1]); (AStr "b", VInt 1)])
           (VDict [(AStr "a", VList [VInt 5]); (AStr "b", VInt 2)])
           "/a/" (ValueChanged "/b" (VInt 1) (VInt 2))).
  - reflexivity.
  - left. reflexivity.
  - vm_compute. left. reflexivity.
Defined.
